(** * Interfacing math functions

    A shallow embedding of the function wrappers of [functions.hpp]
    ([Function], [Differentiable_Function] and their shared evaluation
    counters), of the root finders [Newton] and [Steffensen], of the
    validators of [named_types.hpp] and of [Adam_optimize] ([Adam.hpp]),
    with the properties of the specification proved about them.

    Conventions of the embedding.
    - A [std::shared_ptr<size_t>] is a location in a store of counter cells;
      a null pointer is [None].  Cells are never freed: a cell that no
      instance points to cannot be observed.
    - A [size_t] is an [N] below [2^64]; [++] wraps around.
    - The out-parameters of the evaluation interface are write-only slots
      (the callers hand in uninitialised locals, [T f, df;]), so an
      evaluation strategy is modelled by the values it stores in them.
    - [assert] is modelled as compiled in (no [NDEBUG]): a failed assertion
      aborts the run and is reported with the text of its condition.
    - What is written to [std::cerr] is kept as a list of records.
    - A loop runs on fuel; the theorems give the fuel that is enough. *)

From Stdlib Require Import String.
From Stdlib Require Import NArith ZArith Lia.
From Stdlib Require Import Floats.
From Stdlib Require Import Reals Lra.
From stdpp Require Import base option list.

Local Open Scope N_scope.

(** Decimal constants of type [double] stand for the nearest binary64 value. *)
Set Warnings "-inexact-float".

(** ** Machine integers *)

Definition size_t_modulus : N := 2 ^ 64.

(** [++n] on a [size_t]. *)
Definition size_t_incr (n : N) : N := (n + 1) mod size_t_modulus.

(** [n] increments in a row. *)
Definition size_t_add (n : nat) (c : N) : N := Nat.iter n size_t_incr c.

(** ** The store, the output stream and the monad of runs *)

Definition loc := nat.

(** One record written to [std::cerr]: an iteration index and two scalars
    ([show_iteration (iter, x, f)] in the root finders, [k], the objective
    and the norm of the gradient in [Adam_optimize]). *)
Definition line (T : Type) : Type := (N * T * T)%type.

Record State (T : Type) : Type := mkState {
  counters : list N;
  cerr : list (line T)
}.
Arguments mkState {T} _ _.
Arguments counters {T} _.
Arguments cerr {T} _.

Inductive outcome (T A : Type) : Type :=
| Ret (a : A) (st : State T)
| Abort (assertion : string)
| OutOfFuel.
Arguments Ret {T A} _ _.
Arguments Abort {T A} _.
Arguments OutOfFuel {T A}.

Definition M (T A : Type) : Type := State T -> outcome T A.

Definition ret {T A} (a : A) : M T A := fun st => Ret a st.

Definition bind {T A B} (m : M T A) (k : A -> M T B) : M T B :=
  fun st =>
    match m st with
    | Ret a st' => k a st'
    | Abort e => Abort e
    | OutOfFuel => OutOfFuel
    end.

#[global] Instance M_ret {T} : MRet (M T) := fun A a => ret a.
#[global] Instance M_bind {T} : MBind (M T) := fun A B k m => bind m k.
#[global] Instance M_fmap {T} : FMap (M T) :=
  fun A B g m => bind m (fun a => ret (g a)).

(** [assert (c)], with the text of the condition. *)
Definition assert {T} (c : bool) (text : string) : M T unit :=
  fun st => if c then Ret tt st else Abort text.

Definition out_of_fuel {T A} : M T A := fun _ => OutOfFuel.

(** [std::make_shared<size_t>(v)]: a new cell at the end of the store. *)
Definition make_shared {T} (v : N) : M T loc :=
  fun st => Ret (length (counters st))
                (mkState (counters st ++ [v]) (cerr st)).

(** Reading the cell behind a non-null [p]. *)
Definition deref {T} (p : loc) : M T N :=
  fun st => Ret (default 0 (counters st !! p)) st.

(** [if (p) ++( *p);] *)
Definition count {T} (p : option loc) : M T unit :=
  fun st =>
    match p with
    | Some l => Ret tt (mkState (alter size_t_incr l (counters st)) (cerr st))
    | None => Ret tt st
    end.

(** [std::cerr << ... << std::endl] *)
Definition print {T} (l : line T) : M T unit :=
  fun st => Ret tt (mkState (counters st) (cerr st ++ [l])).

(** ** [Function] *)

Module Function.
Section Function.
Context {T D C : Type}.

(** [struct Interface { virtual void f (const domain_type& x,
    codomain_type& f) const = 0; }] *)
Record Interface : Type := mkInterface {
  Interface_f : D -> C
}.

(** The two members: [_pimpl] and [_f_counter]. *)
Record t : Type := mk {
  _pimpl : Interface;
  _f_counter : option loc
}.

(** [Function (pimpl_type&& pimpl, std::shared_ptr<size_t> f_counter = {})] *)
Definition make (pimpl : Interface) (f_counter : option loc) : t :=
  mk pimpl f_counter.

(** [Function (F&& f)], from a callable [domain -> codomain]. *)
Definition of_lambda (f : D -> C) : t := mk (mkInterface f) None.

(** [void f (const domain_type& x, codomain_type& y) const] *)
Definition f (self : t) (x : D) : M T C :=
  _ ← count (_f_counter self);
  mret (Interface_f (_pimpl self) x).

(** [void initialize_counter ()]: the instance changes, so the changed
    instance is returned. *)
Definition initialize_counter (self : t) : M T t :=
  p ← make_shared 0;
  mret (mk (_pimpl self) (Some p)).

(** [size_t f_counter () const] *)
Definition f_counter (self : t) : M T N :=
  _ ← assert (bool_decide (is_Some (_f_counter self))) "_f_counter";
  match _f_counter self with
  | Some p => deref p
  | None => mret 0
  end.

(** The helper [eval_f (func, x)]. *)
Definition eval_f (func : t) (x : D) : M T C := f func x.
End Function.
Arguments Interface : clear implicits.
Arguments t : clear implicits.
End Function.

(** ** [Differentiable_Function] *)

Module Differentiable_Function.
Section Differentiable_Function.
Context {T D C Df : Type}.

(** [struct Diff_Interface : public function_type::Interface] with the
    two further methods [f_df] and [df]. *)
Record Diff_Interface : Type := mkDiff_Interface {
  base : Function.Interface D C;
  Interface_f_df : D -> C * Df;
  Interface_df : D -> Df
}.

Record t : Type := mk {
  _pimpl : Diff_Interface;
  _f_counter : option loc;
  _df_counter : option loc
}.

(** [Differentiable_Function (pimpl, f_counter = {}, df_counter = {})] *)
Definition make (pimpl : Diff_Interface) (f_counter df_counter : option loc) : t :=
  mk pimpl f_counter df_counter.

(** [Differentiable_Function (F&& f)], from a procedure
    [f (x, y, df)] with two pointer slots, in which a null slot means that the
    quantity is not asked for: [value x] is what the procedure stores in
    the first slot, [differential x] what it stores in the second. *)
Definition of_procedure (value : D -> C) (differential : D -> Df) : t :=
  mk (mkDiff_Interface
        (Function.mkInterface value)
        (fun x => (value x, differential x))
        differential)
     None None.

(** [operator function_type () const { return {_pimpl, _f_counter}; }] *)
Definition to_function (self : t) : Function.t D C :=
  Function.make (base (_pimpl self)) (_f_counter self).

(** [as_function () const { return static_cast<function_type> ( *this); }] *)
Definition as_function (self : t) : Function.t D C := to_function self.

Definition f (self : t) (x : D) : M T C :=
  _ ← count (_f_counter self);
  mret (Function.Interface_f (base (_pimpl self)) x).

Definition f_df (self : t) (x : D) : M T (C * Df) :=
  _ ← count (_f_counter self);
  _ ← count (_df_counter self);
  mret (Interface_f_df (_pimpl self) x).

Definition df (self : t) (x : D) : M T Df :=
  _ ← count (_df_counter self);
  mret (Interface_df (_pimpl self) x).

Definition initialize_counter (self : t) : M T t :=
  p ← make_shared 0;
  q ← make_shared 0;
  mret (mk (_pimpl self) (Some p) (Some q)).

Definition f_counter (self : t) : M T N :=
  _ ← assert (bool_decide (is_Some (_f_counter self))) "_f_counter";
  match _f_counter self with
  | Some p => deref p
  | None => mret 0
  end.

Definition df_counter (self : t) : M T N :=
  _ ← assert (bool_decide (is_Some (_df_counter self))) "_df_counter";
  match _df_counter self with
  | Some p => deref p
  | None => mret 0
  end.

Definition eval_f (func : t) (x : D) : M T C := f func x.
End Differentiable_Function.
Arguments Diff_Interface : clear implicits.
Arguments t : clear implicits.
End Differentiable_Function.

(** ** Scalars

    The solvers are templates over the scalar type [T]; what they use of it
    is collected in a class.  [s_pow] is [std::pow] at an exponent of type
    [size_t] or [int], [s_sqrt] is [std::sqrt], [s_abs] is [std::abs],
    [s_of_N] is the conversion of an integer literal, [s_of_double] the
    conversion of a [double], [s_epsilon] is
    [std::numeric_limits<T>::epsilon ()]. *)

Class Scalar (T : Type) : Type := {
  s_of_N : N -> T;
  s_of_double : float -> T;
  s_epsilon : T;
  s_add : T -> T -> T;
  s_sub : T -> T -> T;
  s_mul : T -> T -> T;
  s_div : T -> T -> T;
  s_neg : T -> T;
  s_abs : T -> T;
  s_sqrt : T -> T;
  s_pow : T -> N -> T;
  s_ltb : T -> T -> bool
}.

Declare Scope scalar_scope.
Delimit Scope scalar_scope with sc.
Infix "+" := s_add : scalar_scope.
Infix "-" := s_sub : scalar_scope.
Infix "*" := s_mul : scalar_scope.
Infix "/" := s_div : scalar_scope.
Notation "- x" := (s_neg x) : scalar_scope.
Infix "<?" := s_ltb : scalar_scope.
Notation "0" := (s_of_N 0%N) : scalar_scope.
Notation "1" := (s_of_N 1%N) : scalar_scope.
Notation "2" := (s_of_N 2%N) : scalar_scope.

(** The sign of a product follows the signs of its factors. *)
Class SignedMul (T : Type) `{Scalar T} : Prop :=
  neg_mul_l : forall a b : T, (- a * b = - (a * b))%sc.

(** The laws of exact arithmetic that the formulas of the specification
    rely on where they are written differently from the source. *)
Class ExactArith (T : Type) `{Scalar T} : Prop := {
  mul_assoc : forall a b c : T, (a * b * c = a * (b * c))%sc;
  recip_mul : forall a c : T, (1 / c * a = a / c)%sc
}.

(** [double]: IEEE 754 binary64 with rounding to nearest.  [std::pow] at an
    integral exponent is computed by repeated multiplication; the
    conversion of an integer is the one of the 63-bit integers, which is
    that of C++ on the literals and indices it is used at. *)
#[global] Instance double : Scalar float := {|
  s_of_N n := PrimFloat.of_uint63 (Uint63.of_Z (Z.of_N n));
  s_of_double d := d;
  s_epsilon := 0x1p-52%float;
  s_add := PrimFloat.add;
  s_sub := PrimFloat.sub;
  s_mul := PrimFloat.mul;
  s_div := PrimFloat.div;
  s_neg := PrimFloat.opp;
  s_abs := PrimFloat.abs;
  s_sqrt := PrimFloat.sqrt;
  s_pow x k := N.iter k (fun a => PrimFloat.mul a x) PrimFloat.one;
  s_ltb := PrimFloat.ltb
|}.

(** The real number that a finite [double] denotes. *)
Definition double_to_R (d : float) : R :=
  match Prim2SF d with
  | S754_finite s m e =>
      ((if s then -1 else 1) * IZR (Z.pos m) * powerRZ 2 e)%R
  | _ => 0%R
  end.

(** The real numbers: the scalars of exact arithmetic. *)
#[global] Instance real : Scalar R := {|
  s_of_N n := IZR (Z.of_N n);
  s_of_double := double_to_R;
  s_epsilon := powerRZ 2 (-52);
  s_add := Rplus;
  s_sub := Rminus;
  s_mul := Rmult;
  s_div := Rdiv;
  s_neg := Ropp;
  s_abs := Rabs;
  s_sqrt := sqrt;
  s_pow x k := pow x (N.to_nat k);
  s_ltb x y := if Rlt_dec x y then true else false
|}.

(** ** Loops *)

Section for_loop.
Context {T St : Type}.
Variable cond : N -> bool.
(** The body returns the state of the locals and whether it left the loop
    by [break]. *)
Variable body : N -> St -> M T (St * bool).

(** [for (size_t i = ...; cond (i); ++i) body] from the test of the
    condition at index [i]; the result is the index and the locals at the
    exit. *)
Fixpoint for_loop (fuel : nat) (i : N) (s : St) : M T (N * St) :=
  match fuel with
  | O => out_of_fuel
  | S fuel' =>
    if cond i then
      '(s', brk) ← body i s;
      if (brk : bool) then mret (i, s')
      else for_loop fuel' (size_t_incr i) s'
    else mret (i, s)
  end.
End for_loop.

(** ** The root finders and their example *)

Definition default_epsilon : float := 1e-10%float.
Definition default_max_iter : N := 20.

Section Root_Finding.
Context {T : Type} `{Scalar T}.
Local Open Scope scalar_scope.

(** [square_root (x, f, df, c)]: [x * x - c] goes to the slot [f] and
    [2 * x] to the slot [df], each when the slot is not null. *)
Definition square_root (c : T) : Differentiable_Function.t T T T :=
  Differentiable_Function.of_procedure
    (fun x => x * x - c) (fun x => 2 * x).

Definition show_iteration (iter : N) (x f : T) : M T unit :=
  print (iter, x, f).

(** The body of the loop of [Newton]; the locals that live across the
    iterations are [x] and [has_converged]. *)
Definition Newton_body (f_obj : Differentiable_Function.t T T T)
    (epsilon : float) (iter : N) (s : T * bool) : M T (T * bool * bool) :=
  let '(x, _) := s in
  '(f, df) ← Differentiable_Function.f_df f_obj x;
  let delta_x := - f / df in
  let has_converged := s_abs delta_x <? s_of_double epsilon in
  let x := x + delta_x in
  _ ← show_iteration iter x f;
  mret ((x, has_converged), has_converged).

(** [bool Newton (f_obj, T& x, double epsilon, size_t max_iter)]: the
    result is the returned flag and the content of [x] at the return. *)
Definition Newton (fuel : nat) (f_obj : Differentiable_Function.t T T T)
    (x : T) (epsilon : float) (max_iter : N) : M T (bool * T) :=
  '(_, (x, has_converged)) ←
    for_loop (fun iter => (iter <=? max_iter)%N)
             (Newton_body f_obj epsilon) fuel 1%N (x, false);
  mret (has_converged, x).

Definition Steffensen_body (f_obj : Function.t T T)
    (epsilon : float) (iter : N) (s : T * bool) : M T (T * bool * bool) :=
  let '(x, _) := s in
  f ← Function.f f_obj x;
  g ← Function.f f_obj (x + f);
  let delta_x := - f * f / (g - f) in
  let has_converged := s_abs delta_x <? s_of_double epsilon in
  let x := x + delta_x in
  _ ← show_iteration iter x f;
  mret ((x, has_converged), has_converged).

Definition Steffensen (fuel : nat) (f_obj : Function.t T T)
    (x : T) (epsilon : float) (max_iter : N) : M T (bool * T) :=
  '(_, (x, has_converged)) ←
    for_loop (fun iter => (iter <=? max_iter)%N)
             (Steffensen_body f_obj epsilon) fuel 1%N (x, false);
  mret (has_converged, x).

(** The calls that leave [epsilon] and [max_iter] to their defaults. *)
Definition Newton_default fuel f_obj x :=
  Newton fuel f_obj x default_epsilon default_max_iter.
Definition Steffensen_default fuel f_obj x :=
  Steffensen fuel f_obj x default_epsilon default_max_iter.
End Root_Finding.

(** ** Named, validated values ([named_types.hpp]) *)

Section Named_Types.
Context {T : Type} `{Scalar T}.
Local Open Scope scalar_scope.

(** [Assert_Positive<T>::operator ()]: [assert (t > 0);] *)
Definition Assert_Positive (t : T) : M T unit :=
  assert (0 <? t) "t > 0".

(** [Assert_In_01_Strict<T>::operator ()]: [assert (t > 0); assert (t < 1);] *)
Definition Assert_In_01_Strict (t : T) : M T unit :=
  _ ← assert (0 <? t) "t > 0";
  assert (t <? 1) "t < 1".

(** Modelled from the spec: the class templates [Named_Type],
    [Named_Assert_Type] and [Named_Std_Function] of [optional_argument.hpp],
    which is not among the sources.  A named value holds the value it is
    built from; [Named_Assert_Type<TAG, ASSERT, T>] runs [ASSERT] on the
    value at the point where the value is supplied; [Named_Type<TAG, T>]
    and [Named_Std_Function] have no validator to run. *)
Definition Named_Type {A : Type} (v : A) : M T A := mret v.

Definition Named_Assert_Type {A : Type} (ASSERT : A -> M T unit) (v : A) : M T A :=
  _ ← ASSERT v;
  mret v.

Definition Maximum_Iterations (n : N) : M T N := Named_Type n.
Definition Verbose (b : bool) : M T bool := Named_Type b.
Definition Relative_Epsilon (v : T) : M T T := Named_Assert_Type Assert_Positive v.
Definition Absolute_Epsilon (v : T) : M T T := Named_Assert_Type Assert_Positive v.
End Named_Types.

(** ** Adam ([Adam.hpp]) *)

Definition default_beta_1 : float := 0.9%float.
Definition default_beta_2 : float := 0.999%float.
Definition default_alpha : float := 0.01%float.
Definition default_absolute_epsilon : float := 1e-6%float.

(** [std::valarray<SCALAR_TYPE>] *)
Abbreviation vector T := (list T).

Section Adam.
Context {T : Type} `{Scalar T}.
Local Open Scope scalar_scope.

(** The operators used on [std::valarray<SCALAR_TYPE>]; two operands
    have the same size in every use. *)

Definition valarray_scale (c : T) (v : vector T) : vector T := (fun a => c * a) <$> v.
Definition valarray_add (u v : vector T) : vector T := zip_with s_add u v.
Definition valarray_sub (u v : vector T) : vector T := zip_with s_sub u v.
Definition valarray_mul (u v : vector T) : vector T := zip_with s_mul u v.
Definition valarray_div (u v : vector T) : vector T := zip_with s_div u v.
Definition valarray_sqrt (v : vector T) : vector T := s_sqrt <$> v.
Definition valarray_add_scalar (v : vector T) (c : T) : vector T := (fun a => a + c) <$> v.

(** [Adam_alpha_constant_schedule (alpha)] *)
Definition Adam_alpha_constant_schedule (alpha : T) : N -> T := fun _ => alpha.

Definition Adam_Alpha_Schedule (f : N -> T) : M T (N -> T) := Named_Type f.
Definition Adam_Beta_1 (v : T) : M T T := Named_Assert_Type Assert_In_01_Strict v.
Definition Adam_Beta_2 (v : T) : M T T := Named_Assert_Type Assert_In_01_Strict v.
Definition Adam_Internal_Epsilon (v : T) : M T T := Named_Assert_Type Assert_In_01_Strict v.

(** [struct Adam_Configuration]: the members hold values that went through
    the constructors of their named types. *)
Record Adam_Configuration : Type := mkAdam_Configuration {
  maximimum_iterations : N;
  alpha_schedule : N -> T;
  beta_1 : T;
  beta_2 : T;
  absolute_epsilon : T;
  verbose : bool;
  internal_epsilon : T
}.

(** The default member initialisers. *)
Definition Adam_Configuration_default : M T Adam_Configuration :=
  maximimum_iterations ← Maximum_Iterations 100%N;
  alpha_schedule ← Adam_Alpha_Schedule
                     (Adam_alpha_constant_schedule (s_of_double default_alpha));
  beta_1 ← Adam_Beta_1 (s_of_double default_beta_1);
  beta_2 ← Adam_Beta_2 (s_of_double default_beta_2);
  absolute_epsilon ← Absolute_Epsilon (s_of_double default_absolute_epsilon);
  verbose ← Verbose false;
  internal_epsilon ← Adam_Internal_Epsilon (s_sqrt s_epsilon);
  mret (mkAdam_Configuration maximimum_iterations alpha_schedule beta_1 beta_2
          absolute_epsilon verbose internal_epsilon).

(** A value as the caller writes it in the argument list,
    [_Adam_beta_1_ = 0.6], before the named value is built from it. *)
Inductive supplied : Type :=
| _Adam_alpha_schedule_ (f : N -> T)
| _Adam_beta_1_ (v : T)
| _Adam_beta_2_ (v : T)
| _maximimum_iterations_ (n : N)
| _absolute_epsilon_ (v : T)
| _verbose_ (b : bool).

(** The named values that [configure_Adam] takes. *)
Inductive user_arg : Type :=
| arg_alpha_schedule (f : N -> T)
| arg_beta_1 (v : T)
| arg_beta_2 (v : T)
| arg_maximimum_iterations (n : N)
| arg_absolute_epsilon (v : T)
| arg_verbose (b : bool).

(** Building the named value: the point at which the value is supplied. *)
Definition supply (a : supplied) : M T user_arg :=
  match a with
  | _Adam_alpha_schedule_ f => arg_alpha_schedule <$> Adam_Alpha_Schedule f
  | _Adam_beta_1_ v => arg_beta_1 <$> Adam_Beta_1 v
  | _Adam_beta_2_ v => arg_beta_2 <$> Adam_Beta_2 v
  | _maximimum_iterations_ n => arg_maximimum_iterations <$> Maximum_Iterations n
  | _absolute_epsilon_ v => arg_absolute_epsilon <$> Absolute_Epsilon v
  | _verbose_ b => arg_verbose <$> Verbose b
  end.

(** [optional_argument (options, user_args...)]: every argument is stored
    in the option of its type. *)
Definition optional_argument (c : Adam_Configuration) (a : user_arg) : Adam_Configuration :=
  match a with
  | arg_alpha_schedule f =>
      mkAdam_Configuration (maximimum_iterations c) f (beta_1 c) (beta_2 c)
        (absolute_epsilon c) (verbose c) (internal_epsilon c)
  | arg_beta_1 v =>
      mkAdam_Configuration (maximimum_iterations c) (alpha_schedule c) v (beta_2 c)
        (absolute_epsilon c) (verbose c) (internal_epsilon c)
  | arg_beta_2 v =>
      mkAdam_Configuration (maximimum_iterations c) (alpha_schedule c) (beta_1 c) v
        (absolute_epsilon c) (verbose c) (internal_epsilon c)
  | arg_maximimum_iterations n =>
      mkAdam_Configuration n (alpha_schedule c) (beta_1 c) (beta_2 c)
        (absolute_epsilon c) (verbose c) (internal_epsilon c)
  | arg_absolute_epsilon v =>
      mkAdam_Configuration (maximimum_iterations c) (alpha_schedule c) (beta_1 c) (beta_2 c)
        v (verbose c) (internal_epsilon c)
  | arg_verbose b =>
      mkAdam_Configuration (maximimum_iterations c) (alpha_schedule c) (beta_1 c) (beta_2 c)
        (absolute_epsilon c) b (internal_epsilon c)
  end.

Definition configure_Adam (user_args : list user_arg) : M T Adam_Configuration :=
  configuration ← Adam_Configuration_default;
  mret (foldl optional_argument configuration user_args).

(** [squared_norm_2] and [norm_2] *)
Definition squared_norm_2 (v : vector T) : T :=
  foldl (fun sum v_i => sum + s_pow (s_abs v_i) 2) 0 v.

Definition norm_2 (v : vector T) : T := s_sqrt (squared_norm_2 v).

(** The locals of [Adam_optimize] that live across the iterations:
    [x_init], [m_k], [v_k] and [has_converged]. *)
Record Adam_locals : Type := mkAdam_locals {
  x_init : vector T;
  m_k : vector T;
  v_k : vector T;
  has_converged : bool
}.

(** The assignments of one iteration that does not leave the loop: the
    new [x_init], [m_k] and [v_k] ([hat_m_k] and [hat_v_k] are written
    before they are read). *)
Definition Adam_update (configuration : Adam_Configuration) (k : N)
    (grad x_init m_k v_k : vector T) : vector T * vector T * vector T :=
  let beta_1 := beta_1 configuration in
  let beta_2 := beta_2 configuration in
  let internal_epsilon := internal_epsilon configuration in
  let m_k := valarray_add (valarray_scale beta_1 m_k)
                          (valarray_scale (1 - beta_1) grad) in
  let v_k := valarray_add (valarray_scale beta_2 v_k)
                          (valarray_mul (valarray_scale (1 - beta_2) grad) grad) in
  let hat_m_k := valarray_scale (1 / (1 - s_pow beta_1 k)) m_k in
  let hat_v_k := valarray_scale (1 / (1 - s_pow beta_2 k)) v_k in
  let x_init :=
    valarray_sub x_init
      (valarray_div (valarray_scale (alpha_schedule configuration k) hat_m_k)
                    (valarray_add_scalar (valarray_sqrt hat_v_k) internal_epsilon)) in
  (x_init, m_k, v_k).

Definition Adam_body (configuration : Adam_Configuration)
    (objective_function : Differentiable_Function.t (vector T) T (vector T))
    (k : N) (s : Adam_locals) : M T (Adam_locals * bool) :=
  let '(mkAdam_locals x_init m_k v_k _) := s in
  grad ← Differentiable_Function.df objective_function x_init;
  let grad_norm := norm_2 grad in
  let has_converged := grad_norm <? absolute_epsilon configuration in
  _ ← (if has_converged || (verbose configuration && (k mod 10 =? 1)%N)
       then
         fx ← Differentiable_Function.eval_f objective_function x_init;
         print (k, fx, grad_norm)
       else mret tt);
  if has_converged then mret (mkAdam_locals x_init m_k v_k has_converged, true)
  else
    let '(x_init, m_k, v_k) := Adam_update configuration k grad x_init m_k v_k in
    mret (mkAdam_locals x_init m_k v_k has_converged, false).

(** The loop of [Adam_optimize], with the index and the locals at its exit. *)
Definition Adam_loop (fuel : nat) (configuration : Adam_Configuration)
    (objective_function : Differentiable_Function.t (vector T) T (vector T))
    (x_init : vector T) : M T (N * Adam_locals) :=
  let domain_size := length x_init in
  let m_k := replicate domain_size 0 in
  let v_k := replicate domain_size 0 in
  for_loop (fun k => (k <? maximimum_iterations configuration)%N)
           (Adam_body configuration objective_function)
           fuel 1%N (mkAdam_locals x_init m_k v_k false).

(** [bool Adam_optimize (configuration, objective_function, x_init)]: the
    result is the returned flag and the content of [x_init] at the return. *)
Definition Adam_optimize (fuel : nat) (configuration : Adam_Configuration)
    (objective_function : Differentiable_Function.t (vector T) T (vector T))
    (x_init : vector T) : M T (bool * (vector T)) :=
  '(_, mkAdam_locals x_init _ _ has_converged) ←
    Adam_loop fuel configuration objective_function x_init;
  mret (has_converged, x_init).

(** [bool Adam_optimize (objective_function, x_init, user_args...)] *)
Definition Adam_optimize_args (fuel : nat)
    (objective_function : Differentiable_Function.t (vector T) T (vector T))
    (x_init : vector T) (user_args : list user_arg) : M T (bool * (vector T)) :=
  configuration ← configure_Adam user_args;
  Adam_optimize fuel configuration objective_function x_init.

(** A call [Adam_optimize (f, x, _Adam_beta_1_ = 0.6, ...)]: the arguments
    are built, then the function is entered. *)
Definition Adam_optimize_call (fuel : nat)
    (objective_function : Differentiable_Function.t (vector T) T (vector T))
    (x_init : vector T) (args : list supplied) : M T (bool * (vector T)) :=
  user_args ← mapM supply args;
  Adam_optimize_args fuel objective_function x_init user_args.

(** [Rosenbrock (x, f, df, c)] of [Adam.cpp], for [x] of size two, which
    is what the procedure asserts of its argument. *)
Definition Rosenbrock (c : T) : Differentiable_Function.t (vector T) T (vector T) :=
  Differentiable_Function.of_procedure
    (fun x =>
       let x0 := default 0 (x !! 0%nat) in
       let x1 := default 0 (x !! 1%nat) in
       (1 - x0) * (1 - x0) + c * (x1 - x0 * x0) * (x1 - x0 * x0))
    (fun x =>
       let x0 := default 0 (x !! 0%nat) in
       let x1 := default 0 (x !! 1%nat) in
       [ 2 * (s_neg 1 + x0 + 2 * c * x0 * x0 * x0 - 2 * c * x0 * x1);
         2 * c * (x1 - x0 * x0) ]).
End Adam.
Arguments Adam_Configuration : clear implicits.
Arguments Adam_locals : clear implicits.
Arguments supplied : clear implicits.
Arguments user_arg : clear implicits.

(** * Vocabulary of the specification *)

(** The store after [n] increments through the pointer [p]. *)
Definition bump (p : option loc) (n : nat) (h : list N) : list N :=
  match p with
  | Some l => alter (size_t_add n) l h
  | None => h
  end.

(** A pointer of an instance points into the store. *)
Definition valid_pointer {T} (p : option loc) (st : State T) : Prop :=
  forall l, p = Some l -> (l < length (counters st))%nat.

(** What a run returns, when it returns. *)
Definition returned {T A} (o : outcome T A) : option A :=
  match o with
  | Ret a _ => Some a
  | _ => None
  end.

(** The error kinds, by the assertions that raise them: the validators of
    the configuration values, and the guards of the counter readers. *)
Definition InvalidConfiguration (text : string) : Prop :=
  text = "t > 0"%string \/ text = "t < 1"%string.

Definition PreconditionViolation (text : string) : Prop :=
  text = "_f_counter"%string \/ text = "_df_counter"%string.

Section Calls.
Context {T D C Df : Type}.

(** One evaluation, through a [Function] or through one of the three entry
    points of a [Differentiable_Function]. *)
Inductive call : Type :=
| via_Function (F : Function.t D C) (x : D)
| via_f (G : Differentiable_Function.t D C Df) (x : D)
| via_f_df (G : Differentiable_Function.t D C Df) (x : D)
| via_df (G : Differentiable_Function.t D C Df) (x : D).

Definition run_call (c : call) : M T unit :=
  match c with
  | via_Function F x => _ ← Function.f F x; mret tt
  | via_f G x => _ ← Differentiable_Function.f G x; mret tt
  | via_f_df G x => _ ← Differentiable_Function.f_df G x; mret tt
  | via_df G x => _ ← Differentiable_Function.df G x; mret tt
  end.

Fixpoint run_calls (cs : list call) : M T unit :=
  match cs with
  | [] => mret tt
  | c :: cs' => _ ← run_call c; run_calls cs'
  end.

Definition evaluates_value (c : call) : bool :=
  match c with via_df _ _ => false | _ => true end.

Definition evaluates_derivative (c : call) : bool :=
  match c with via_f_df _ _ | via_df _ _ => true | _ => false end.

Definition value_evaluations (cs : list call) : nat :=
  length (filter (fun c => evaluates_value c = true) cs).

Definition derivative_evaluations (cs : list call) : nat :=
  length (filter (fun c => evaluates_derivative c = true) cs).

(** The call goes through a copy of [G] or through a [Function] that
    shares the value counter of [G]. *)
Definition through_alias (G : Differentiable_Function.t D C Df) (c : call) : Prop :=
  match c with
  | via_Function F _ => Function._f_counter F = Differentiable_Function._f_counter G
  | via_f G' _ | via_f_df G' _ | via_df G' _ =>
      Differentiable_Function._f_counter G' = Differentiable_Function._f_counter G /\
      Differentiable_Function._df_counter G' = Differentiable_Function._df_counter G
  end.

(** Evaluations through plain [Function]s, one after the other. *)
Fixpoint run_evaluations (es : list (Function.t D C * D)) : M T unit :=
  match es with
  | [] => mret tt
  | (F, x) :: es' => _ ← Function.f F x; run_evaluations es'
  end.
End Calls.

Section Declared_Ranges.
Context {T : Type} `{Scalar T}.
Local Open Scope scalar_scope.

(** The constraints of the table of configuration parameters: the betas in
    the open interval (0,1), the absolute epsilon positive, the maximum of
    iterations a positive integer, no constraint on the schedule and on the
    verbosity. *)
Definition in_declared_range (a : supplied T) : bool :=
  match a with
  | _Adam_alpha_schedule_ _ => true
  | _Adam_beta_1_ v => (0 <? v) && (v <? 1)
  | _Adam_beta_2_ v => (0 <? v) && (v <? 1)
  | _maximimum_iterations_ n => (0 <? n)%N
  | _absolute_epsilon_ v => 0 <? v
  | _verbose_ _ => true
  end.

(** The values whose named type carries a validator. *)
Definition validated (a : supplied T) : bool :=
  match a with
  | _Adam_beta_1_ _ | _Adam_beta_2_ _ | _absolute_epsilon_ _ => true
  | _ => false
  end.

(** The named value built from a value that is accepted. *)
Definition stored (a : supplied T) : user_arg T :=
  match a with
  | _Adam_alpha_schedule_ f => arg_alpha_schedule f
  | _Adam_beta_1_ v => arg_beta_1 v
  | _Adam_beta_2_ v => arg_beta_2 v
  | _maximimum_iterations_ n => arg_maximimum_iterations n
  | _absolute_epsilon_ v => arg_absolute_epsilon v
  | _verbose_ b => arg_verbose b
  end.
End Declared_Ranges.

(** Two instances used to run the counter operations on: a successor
    function on [N] with its derivative, before and after its counters are
    initialised in the empty store. *)
Definition example_function : Differentiable_Function.t N N N :=
  Differentiable_Function.of_procedure N.succ (fun _ => 1).

Definition example_function_counting : Differentiable_Function.t N N N :=
  Differentiable_Function.mk (Differentiable_Function._pimpl example_function)
    (Some 0%nat) (Some 1%nat).

Section Root_Finding_Specification.
Context {T : Type} `{Scalar T}.
Local Open Scope scalar_scope.

(** What one iteration computes at the iterate [x], in the words of the
    specification: the step [delta] and the value [f] that is reported.
    Newton: [(f, df) = value_and_derivative (x)], [delta = -f/df]. *)
Definition Newton_step_spec (f_obj : Differentiable_Function.t T T T) (x : T) : T * T :=
  let '(f, df) :=
    Differentiable_Function.Interface_f_df (Differentiable_Function._pimpl f_obj) x in
  (- f / df, f).

(** Steffensen: [f = value (x)], [g = value (x + f)],
    [delta = -f^2 / (g - f)]. *)
Definition Steffensen_step_spec (f_obj : Function.t T T) (x : T) : T * T :=
  let value := Function.Interface_f (Function._pimpl f_obj) in
  let f := value x in
  let g := value (x + f) in
  (- (f * f) / (g - f), f).

(** The iterate after [k] steps [x += delta]. *)
Fixpoint iterate_spec (step : T -> T * T) (k : nat) (x : T) : T :=
  match k with
  | O => x
  | S k' => iterate_spec step k' (x + (step x).1)
  end.

(** Convergence is declared at [x] when [|delta| < epsilon]. *)
Definition converged_at (step : T -> T * T) (epsilon : T) (x : T) : bool :=
  s_abs (step x).1 <? epsilon.

(** The state machine of the root finders with [n] iterations left, at the
    1-based index [iter]: update [x += delta], report [(iter, x, f)], stop
    with [true] when convergence is declared, with [false] when the cap is
    reached.  The result is the flag, the final iterate and the reports. *)
Fixpoint root_iteration_spec (step : T -> T * T) (epsilon : T)
    (n : nat) (iter : N) (x : T) : bool * T * list (line T) :=
  match n with
  | O => (false, x, [])
  | S n' =>
      let '(delta, f) := step x in
      let x' := x + delta in
      if s_abs delta <? epsilon then (true, x', [(iter, x', f)])
      else
        let '(b, xf, ls) := root_iteration_spec step epsilon n' (iter + 1)%N x' in
        (b, xf, (iter, x', f) :: ls)
  end.
End Root_Finding_Specification.

Section Adam_Specification.
Context {T : Type} `{Scalar T}.
Local Open Scope scalar_scope.

(** The gradient that the objective stores for [x]. *)
Definition gradient_at (objective_function : Differentiable_Function.t (vector T) T (vector T))
    (x : vector T) : vector T :=
  Differentiable_Function.Interface_df
    (Differentiable_Function._pimpl objective_function) x.

(** The value that the objective stores for [x]. *)
Definition value_at (objective_function : Differentiable_Function.t (vector T) T (vector T))
    (x : vector T) : T :=
  Function.Interface_f
    (Differentiable_Function.base (Differentiable_Function._pimpl objective_function)) x.

(** The convergence test at [x]: the norm of the gradient is below the
    absolute epsilon. *)
Definition Adam_converged_at (configuration : Adam_Configuration T)
    (objective_function : Differentiable_Function.t (vector T) T (vector T))
    (x : vector T) : bool :=
  norm_2 (gradient_at objective_function x) <? absolute_epsilon configuration.

(** The iterate and the two moments after [j] update steps, the first of
    them at the index [k]. *)
Fixpoint Adam_updates (configuration : Adam_Configuration T)
    (objective_function : Differentiable_Function.t (vector T) T (vector T))
    (j : nat) (k : N) (x m v : vector T) : vector T * vector T * vector T :=
  match j with
  | O => (x, m, v)
  | S j' =>
      let '(x', m', v') :=
        Adam_update configuration k (gradient_at objective_function x) x m v in
      Adam_updates configuration objective_function j' (k + 1)%N x' m' v'
  end.

(** The store and the output after one iteration at the index [k] and the
    iterate [x]: the gradient is evaluated; the value is evaluated and a
    record written when the test holds, or under [verbose] at every tenth
    index. *)
Definition Adam_iteration_effect (configuration : Adam_Configuration T)
    (objective_function : Differentiable_Function.t (vector T) T (vector T))
    (k : N) (x : vector T) (st : State T) : State T :=
  let h := bump (Differentiable_Function._df_counter objective_function) 1 (counters st) in
  if Adam_converged_at configuration objective_function x
     || (verbose configuration && (k mod 10 =? 1)%N)
  then mkState (bump (Differentiable_Function._f_counter objective_function) 1 h)
               (cerr st ++ [(k, value_at objective_function x,
                             norm_2 (gradient_at objective_function x))])
  else mkState h (cerr st).
End Adam_Specification.

(** ** The two programs of the repository *)

(** [main] of the root finders: Newton, then Steffensen, on
    [square_root<double>] with [c = 2] from [x = 2]; the result is what the
    program prints after each solver (the flag, the two counters) and the
    final [x].  Twenty-one units of fuel cover the twenty iterations. *)
Definition main_root_finders : M float (bool * float * N * N * (bool * float * N * N)) :=
  let f := square_root 2%float in
  let x_init := 2%float in
  f ← Differentiable_Function.initialize_counter f;
  '(has_converged, x) ← Newton_default 21 f x_init;
  f_count ← Differentiable_Function.f_counter f;
  df_count ← Differentiable_Function.df_counter f;
  let newton := (has_converged, x, f_count, df_count) in
  f ← Differentiable_Function.initialize_counter f;
  '(has_converged, x) ← Steffensen_default 21 (Differentiable_Function.as_function f) x_init;
  f_count ← Differentiable_Function.f_counter f;
  df_count ← Differentiable_Function.df_counter f;
  mret (newton, (has_converged, x, f_count, df_count)).

(** [main] of [main.cpp]: Adam on [Rosenbrock] with [c = 10] from
    [(2, 2)]. *)
Definition main_Adam : M float (bool * vector float * N * N) :=
  f_Rosenbrock ← Differentiable_Function.initialize_counter (Rosenbrock 10%float);
  '(has_converged, x) ←
    Adam_optimize_call 100 f_Rosenbrock [2%float; 2%float]
      [_Adam_beta_1_ 0.6%float; _Adam_beta_2_ 0.6%float;
       _Adam_alpha_schedule_ (fun t => (1 / PrimFloat.sqrt (s_of_N t))%float);
       _absolute_epsilon_ 0.01%float; _verbose_ true];
  f_count ← Differentiable_Function.f_counter f_Rosenbrock;
  df_count ← Differentiable_Function.df_counter f_Rosenbrock;
  mret (has_converged, x, f_count, df_count).

(** A configuration and an objective in [double] to run Adam on: the
    square of [x] with the gradient [2 x]. *)
Definition example_configuration : Adam_Configuration float :=
  mkAdam_Configuration 100 (fun _ => 0.5%float) 0.5%float 0.5%float 0.25%float
    false 0x1p-26%float.

Definition example_quadratic : Differentiable_Function.t (vector float) float (vector float) :=
  Differentiable_Function.of_procedure
    (fun x => let a := default 0%float (x !! 0%nat) in (a * a)%float)
    (fun x => (fun a => (2 * a)%float) <$> x).

(** The same over the real numbers, with the test of convergence switched
    off by a zero threshold. *)
Definition example_configuration_R : Adam_Configuration R :=
  mkAdam_Configuration 100 (fun _ => (1 / 2)%R) (1 / 2)%R (1 / 2)%R 0%R false (1 / 4)%R.

Definition example_quadratic_R : Differentiable_Function.t (vector R) R (vector R) :=
  Differentiable_Function.of_procedure
    (fun x => let a := default 0%R (x !! 0%nat) in (a * a)%R)
    (fun x => (fun a => (2 * a)%R) <$> x).

(** ** Further vocabulary: counters, configuration *)

(** The number of the evaluations of [es] that go through an instance
    whose value counter is the pointer [p]. *)
Definition evaluations_through {D C : Type} (p : option loc)
    (es : list (Function.t D C * D)) : nat :=
  length (filter (fun e => Function._f_counter e.1 = p) es).

(** The parameter that a named argument sets: one option of
    [configure_Adam] for each named type. *)
Inductive option_kind : Type :=
| kind_alpha_schedule | kind_beta_1 | kind_beta_2
| kind_maximimum_iterations | kind_absolute_epsilon | kind_verbose.

Definition kind_of {T : Type} (a : user_arg T) : option_kind :=
  match a with
  | arg_alpha_schedule _ => kind_alpha_schedule
  | arg_beta_1 _ => kind_beta_1
  | arg_beta_2 _ => kind_beta_2
  | arg_maximimum_iterations _ => kind_maximimum_iterations
  | arg_absolute_epsilon _ => kind_absolute_epsilon
  | arg_verbose _ => kind_verbose
  end.

Section Adam_Records.
Context {T : Type} `{Scalar T}.

(** The record that an iteration at the index [k] and the iterate [x]
    writes when it writes one. *)
Definition Adam_record
    (objective_function : Differentiable_Function.t (vector T) T (vector T))
    (k : N) (x : vector T) : line T :=
  (k, value_at objective_function x, norm_2 (gradient_at objective_function x)).

(** The records of [j] iterations that go on to their update, the first of
    them at the index [k]: one at every index [k] with [k % 10 == 1], under
    [verbose]. *)
Fixpoint Adam_progress (configuration : Adam_Configuration T)
    (objective_function : Differentiable_Function.t (vector T) T (vector T))
    (j : nat) (k : N) (x m v : vector T) : list (line T) :=
  match j with
  | O => []
  | S j' =>
      let here :=
        if verbose configuration && (k mod 10 =? 1)%N
        then [Adam_record objective_function k x] else [] in
      let '(x', m', v') :=
        Adam_update configuration k (gradient_at objective_function x) x m v in
      here ++ Adam_progress configuration objective_function j' (k + 1)%N x' m' v'
  end.
End Adam_Records.


(** What a run has written to [std::cerr] when it returns. *)
Definition printed {T A} (o : outcome T A) : option (list (line T)) :=
  match o with
  | Ret _ st => Some (cerr st)
  | _ => None
  end.

(** * Properties *)

(** ** The monad and the store *)

Ltac unfold_monad :=
  unfold mbind, M_bind, fmap, M_fmap, bind, mret, M_ret, ret.

Lemma bind_Ret {T A B} (m : M T A) (k : A -> M T B) st a st' :
  m st = Ret a st' -> (m ≫= k) st = k a st'.
Proof. unfold_monad. by intros ->. Qed.

Lemma bind_Abort {T A B} (m : M T A) (k : A -> M T B) st e :
  m st = Abort e -> (m ≫= k) st = Abort e.
Proof. unfold_monad. by intros ->. Qed.

Lemma size_t_incr_lt (c : N) : size_t_incr c < size_t_modulus.
Proof. unfold size_t_incr, size_t_modulus. apply N.mod_lt. discriminate. Qed.

Lemma size_t_add_succ (n : nat) (c : N) :
  size_t_add (S n) c = size_t_incr (size_t_add n c).
Proof. reflexivity. Qed.

Lemma size_t_add_add (a b : nat) (c : N) :
  size_t_add a (size_t_add b c) = size_t_add (a + b) c.
Proof. unfold size_t_add. by rewrite Nat.iter_add. Qed.

Lemma size_t_add_mod (n : nat) (c : N) :
  c < size_t_modulus -> size_t_add n c = (c + N.of_nat n) mod size_t_modulus.
Proof.
  intros Hc. induction n as [|n IH].
  - cbn [size_t_add Nat.iter]. rewrite N.add_0_r. by rewrite N.mod_small.
  - rewrite size_t_add_succ, IH. unfold size_t_incr.
    rewrite N.Div0.add_mod_idemp_l. f_equal. lia.
Qed.

Lemma size_t_add_exact (n : nat) :
  N.of_nat n < size_t_modulus -> size_t_add n 0 = N.of_nat n.
Proof.
  intros Hn. rewrite size_t_add_mod by done.
  rewrite N.add_0_l. by apply N.mod_small.
Qed.

Lemma bump_0 p h : bump p 0 h = h.
Proof. destruct p as [l|]; [|done]. by apply list_alter_id. Qed.

Lemma bump_bump p a b h : bump p a (bump p b h) = bump p (a + b) h.
Proof.
  destruct p as [l|]; [|done]. cbn [bump].
  rewrite list_alter_alter_eq. apply list_alter_ext; [|done].
  intros c _. apply size_t_add_add.
Qed.

Lemma bump_comm p q a b h : bump p a (bump q b h) = bump q b (bump p a h).
Proof.
  destruct p as [l|], q as [l'|]; try done. cbn [bump].
  destruct (decide (l = l')) as [->|Hne].
  - rewrite !list_alter_alter_eq. apply list_alter_ext; [|done].
    intros c _. cbn. rewrite !size_t_add_add. f_equal. lia.
  - by apply list_alter_alter_ne.
Qed.

Lemma length_bump p n h : length (bump p n h) = length h.
Proof. destruct p; [apply length_alter|done]. Qed.

Lemma lookup_bump_eq l n h : bump (Some l) n h !! l = size_t_add n <$> h !! l.
Proof. apply list_lookup_alter_eq. Qed.

Lemma lookup_bump_ne p l n h : p <> Some l -> bump p n h !! l = h !! l.
Proof.
  destruct p as [l'|]; [|done]. intros Hne. apply list_lookup_alter_ne. congruence.
Qed.

Lemma count_spec {T} (p : option loc) (st : State T) :
  count p st = Ret tt (mkState (bump p 1 (counters st)) (cerr st)).
Proof. destruct p; [done|]. by destruct st. Qed.

(** ** The evaluation counters *)

Section Counters.
Context {T D C Df : Type}.
Implicit Types (F : Function.t D C) (G : Differentiable_Function.t D C Df).
Implicit Types (st : State T) (x : D).

Lemma Function_f_spec F x st :
  Function.f F x st =
  Ret (Function.Interface_f (Function._pimpl F) x)
      (mkState (bump (Function._f_counter F) 1 (counters st)) (cerr st)).
Proof. unfold Function.f. unfold_monad. by rewrite count_spec. Qed.

Lemma Differentiable_f_spec G x st :
  Differentiable_Function.f G x st =
  Ret (Function.Interface_f (Differentiable_Function.base (Differentiable_Function._pimpl G)) x)
      (mkState (bump (Differentiable_Function._f_counter G) 1 (counters st)) (cerr st)).
Proof. unfold Differentiable_Function.f. unfold_monad. by rewrite count_spec. Qed.

Lemma Differentiable_f_df_spec G x st :
  Differentiable_Function.f_df G x st =
  Ret (Differentiable_Function.Interface_f_df (Differentiable_Function._pimpl G) x)
      (mkState (bump (Differentiable_Function._df_counter G) 1
                  (bump (Differentiable_Function._f_counter G) 1 (counters st)))
               (cerr st)).
Proof. unfold Differentiable_Function.f_df. unfold_monad. by rewrite !count_spec. Qed.

Lemma Differentiable_df_spec G x st :
  Differentiable_Function.df G x st =
  Ret (Differentiable_Function.Interface_df (Differentiable_Function._pimpl G) x)
      (mkState (bump (Differentiable_Function._df_counter G) 1 (counters st)) (cerr st)).
Proof. unfold Differentiable_Function.df. unfold_monad. by rewrite count_spec. Qed.

Lemma Function_f_counter_spec F st l :
  Function._f_counter F = Some l ->
  Function.f_counter F st = Ret (default 0 (counters st !! l)) st.
Proof. intros Hl. unfold Function.f_counter. by rewrite Hl. Qed.

Lemma Differentiable_f_counter_spec G st l :
  Differentiable_Function._f_counter G = Some l ->
  Differentiable_Function.f_counter G st = Ret (default 0 (counters st !! l)) st.
Proof. intros Hl. unfold Differentiable_Function.f_counter. by rewrite Hl. Qed.

Lemma Differentiable_df_counter_spec G st l :
  Differentiable_Function._df_counter G = Some l ->
  Differentiable_Function.df_counter G st = Ret (default 0 (counters st !! l)) st.
Proof. intros Hl. unfold Differentiable_Function.df_counter. by rewrite Hl. Qed.

Lemma value_evaluations_cons (c : call (D:=D) (C:=C) (Df:=Df)) cs :
  value_evaluations (c :: cs) =
  ((if evaluates_value c then 1 else 0) + value_evaluations cs)%nat.
Proof.
  unfold value_evaluations. rewrite filter_cons.
  destruct (evaluates_value c); by case_decide.
Qed.

Lemma derivative_evaluations_cons (c : call (D:=D) (C:=C) (Df:=Df)) cs :
  derivative_evaluations (c :: cs) =
  ((if evaluates_derivative c then 1 else 0) + derivative_evaluations cs)%nat.
Proof.
  unfold derivative_evaluations. rewrite filter_cons.
  destruct (evaluates_derivative c); by case_decide.
Qed.

Lemma run_call_spec G (c : call) st :
  through_alias G c ->
  run_call c st =
  Ret tt (mkState
            (bump (Differentiable_Function._df_counter G)
                  (if evaluates_derivative c then 1 else 0)
                  (bump (Differentiable_Function._f_counter G)
                        (if evaluates_value c then 1 else 0) (counters st)))
            (cerr st)).
Proof.
  destruct c as [F x|G' x|G' x|G' x]; cbn [through_alias run_call
    evaluates_value evaluates_derivative]; unfold_monad.
  - intros <-. by rewrite Function_f_spec, bump_0.
  - intros [<- <-]. by rewrite Differentiable_f_spec, bump_0.
  - intros [<- <-]. by rewrite Differentiable_f_df_spec.
  - intros [<- <-]. by rewrite Differentiable_df_spec, bump_0.
Qed.

Lemma run_calls_spec G (cs : list call) st :
  Forall (through_alias G) cs ->
  run_calls cs st =
  Ret tt (mkState
            (bump (Differentiable_Function._df_counter G) (derivative_evaluations cs)
                  (bump (Differentiable_Function._f_counter G)
                        (value_evaluations cs) (counters st)))
            (cerr st)).
Proof.
  intros Hcs. revert st. induction Hcs as [|c cs Hc _ IH]; intros st.
  - cbn. rewrite !bump_0. by destruct st.
  - cbn [run_calls]. unfold_monad. rewrite (run_call_spec G) by done.
    rewrite IH. cbn [counters cerr].
    rewrite value_evaluations_cons, derivative_evaluations_cons.
    f_equal. f_equal.
    rewrite (bump_comm (Differentiable_Function._f_counter G)
                       (Differentiable_Function._df_counter G)).
    rewrite bump_bump, (bump_comm (Differentiable_Function._f_counter G)), bump_bump.
    f_equal; lia.
Qed.

Lemma run_evaluations_spec (p : option loc) (es : list (Function.t D C * D)) st :
  Forall (fun e => Function._f_counter e.1 = p) es ->
  run_evaluations es st =
  Ret tt (mkState (bump p (length es) (counters st)) (cerr st)).
Proof.
  intros Hes. revert st. induction Hes as [|[F x] es HF _ IH]; intros st.
  - cbn. rewrite bump_0. by destruct st.
  - cbn in HF. subst p. cbn [run_evaluations]. unfold_monad.
    rewrite Function_f_spec, IH. cbn [counters cerr].
    rewrite bump_bump. do 3 f_equal. cbn. lia.
Qed.

Lemma Function_initialize_counter_spec F st :
  Function.initialize_counter F st =
  Ret (Function.mk (Function._pimpl F) (Some (length (counters st))))
      (mkState (counters st ++ [0]) (cerr st)).
Proof. reflexivity. Qed.

Lemma Differentiable_initialize_counter_spec G st :
  Differentiable_Function.initialize_counter G st =
  Ret (Differentiable_Function.mk (Differentiable_Function._pimpl G)
         (Some (length (counters st))) (Some (S (length (counters st)))))
      (mkState (counters st ++ [0; 0]) (cerr st)).
Proof.
  unfold Differentiable_Function.initialize_counter, make_shared. unfold_monad.
  cbn. rewrite length_app, <- app_assoc. cbn. do 3 f_equal. f_equal. lia.
Qed.

Lemma lookup_fresh_cell (h : list N) (v : N) (tl : list N) :
  (h ++ v :: tl) !! length h = Some v.
Proof. by rewrite lookup_app_r, Nat.sub_diag by lia. Qed.
End Counters.

Section Counter_Claims.
Context {T D C Df : Type}.
Implicit Types (F : Function.t D C) (G : Differentiable_Function.t D C Df).
Implicit Types (st : State T) (x : D).

Lemma read_after_evaluations F st (es : list (Function.t D C * D)) :
  let F' := Function.mk (Function._pimpl F) (Some (length (counters st))) in
  let st' := mkState (counters st ++ [0]) (cerr st) in
  Forall (fun e => Function._f_counter e.1 = Function._f_counter F') es ->
  (_ ← run_evaluations es; Function.f_counter F') st' =
  Ret (size_t_add (length es) 0)
      (mkState (bump (Some (length (counters st))) (length es) (counters st ++ [0]))
               (cerr st)).
Proof.
  intros F' st' Hes. unfold_monad.
  rewrite (run_evaluations_spec _ _ _ Hes).
  rewrite (Function_f_counter_spec F' _ (length (counters st))) by done.
  subst F' st'. cbn [counters cerr Function._f_counter].
  by rewrite lookup_bump_eq, lookup_fresh_cell.
Qed.

Lemma read_after_calls G st (cs : list call) :
  let l := length (counters st) in
  let G' := Differentiable_Function.mk (Differentiable_Function._pimpl G)
              (Some l) (Some (S l)) in
  let st' := mkState (counters st ++ [0; 0]) (cerr st) in
  Forall (through_alias G') cs ->
  (_ ← run_calls cs;
   a ← Differentiable_Function.f_counter G';
   b ← Differentiable_Function.df_counter G';
   mret (a, b)) st' =
  Ret (size_t_add (value_evaluations cs) 0, size_t_add (derivative_evaluations cs) 0)
      (mkState (bump (Some (S l)) (derivative_evaluations cs)
                  (bump (Some l) (value_evaluations cs) (counters st ++ [0; 0])))
               (cerr st)).
Proof.
  intros l G' st' Hcs. unfold_monad.
  rewrite (run_calls_spec _ _ _ Hcs).
  rewrite (Differentiable_f_counter_spec G' _ l) by done.
  rewrite (Differentiable_df_counter_spec G' _ (S l)) by done.
  subst G' st' l. cbn [counters cerr Differentiable_Function._f_counter
       Differentiable_Function._df_counter].
  rewrite lookup_bump_ne by (intros [= ?]; lia).
  rewrite !lookup_bump_eq, lookup_bump_ne by (intros [= ?]; lia).
  rewrite lookup_fresh_cell.
  replace (counters st ++ [0; 0]) with ((counters st ++ [0]) ++ [0])
    by (by rewrite <- app_assoc).
  replace (S (length (counters st))) with (length (counters st ++ [0]))
    by (rewrite length_app; cbn; lia).
  by rewrite lookup_fresh_cell.
Qed.

(** C5. When the counters are initialised, every evaluation increments
    each matching counter once ([f] and [f_df] the value counter, [df] and
    [f_df] the derivative counter, both on [f_df]); hence after
    [initialize_counter] and [n] evaluations through any mix of instances
    that share the counter, the counter reads [n] ([n] being a [size_t]). *)
Theorem counter_correctness F G x st :
  Function.f F x st =
    Ret (Function.Interface_f (Function._pimpl F) x)
        (mkState (bump (Function._f_counter F) 1 (counters st)) (cerr st)) /\
  Differentiable_Function.f G x st =
    Ret (Function.Interface_f
           (Differentiable_Function.base (Differentiable_Function._pimpl G)) x)
        (mkState (bump (Differentiable_Function._f_counter G) 1 (counters st))
                 (cerr st)) /\
  Differentiable_Function.f_df G x st =
    Ret (Differentiable_Function.Interface_f_df (Differentiable_Function._pimpl G) x)
        (mkState (bump (Differentiable_Function._df_counter G) 1
                    (bump (Differentiable_Function._f_counter G) 1 (counters st)))
                 (cerr st)) /\
  Differentiable_Function.df G x st =
    Ret (Differentiable_Function.Interface_df (Differentiable_Function._pimpl G) x)
        (mkState (bump (Differentiable_Function._df_counter G) 1 (counters st))
                 (cerr st)) /\
  (forall F' st' (es : list (Function.t D C * D)),
     Function.initialize_counter F st = Ret F' st' ->
     Forall (fun e => Function._f_counter e.1 = Function._f_counter F') es ->
     N.of_nat (length es) < size_t_modulus ->
     exists st'',
       (_ ← run_evaluations es; Function.f_counter F') st' =
       Ret (N.of_nat (length es)) st'') /\
  (forall G' st' (cs : list call),
     Differentiable_Function.initialize_counter G st = Ret G' st' ->
     Forall (through_alias G') cs ->
     N.of_nat (value_evaluations cs) < size_t_modulus ->
     N.of_nat (derivative_evaluations cs) < size_t_modulus ->
     exists st'',
       (_ ← run_calls cs;
        a ← Differentiable_Function.f_counter G';
        b ← Differentiable_Function.df_counter G';
        mret (a, b)) st' =
       Ret (N.of_nat (value_evaluations cs), N.of_nat (derivative_evaluations cs)) st'').
Proof.
  split; [apply Function_f_spec|].
  split; [apply Differentiable_f_spec|].
  split; [apply Differentiable_f_df_spec|].
  split; [apply Differentiable_df_spec|].
  split.
  - intros F' st' es Hinit Hes Hn.
    rewrite Function_initialize_counter_spec in Hinit.
    injection Hinit as <- <-. eexists.
    rewrite (read_after_evaluations F st es Hes).
    by rewrite size_t_add_exact.
  - intros G' st' cs Hinit Hcs Hv Hd.
    rewrite Differentiable_initialize_counter_spec in Hinit.
    injection Hinit as <- <-. eexists.
    rewrite (read_after_calls G st cs Hcs).
    by rewrite !size_t_add_exact.
Qed.

(** C6. The [Function] obtained from a [Differentiable_Function] by
    [as_function] or by the conversion operator has the strategy and the
    value counter of the original: evaluating through it is evaluating [f]
    on the original, the counts of both go to one cell, and both read the
    same count. *)
Theorem downgrade_shares_counter G x (y : D) st :
  Differentiable_Function.as_function G = Differentiable_Function.to_function G /\
  Function._pimpl (Differentiable_Function.as_function G) =
    Differentiable_Function.base (Differentiable_Function._pimpl G) /\
  Function._f_counter (Differentiable_Function.as_function G) =
    Differentiable_Function._f_counter G /\
  Function.f (Differentiable_Function.as_function G) x st =
    Differentiable_Function.f G x st /\
  Function.f_counter (Differentiable_Function.as_function G) st =
    Differentiable_Function.f_counter G st /\
  (exists a b,
     (a ← Differentiable_Function.f G x;
      b ← Function.f (Differentiable_Function.as_function G) y;
      mret (a, b)) st =
     Ret (a, b)
         (mkState (bump (Differentiable_Function._f_counter G) 2 (counters st))
                  (cerr st))).
Proof.
  repeat split.
  eexists _, _. unfold_monad.
  rewrite Differentiable_f_spec, Function_f_spec. cbn [counters cerr].
  cbn [Differentiable_Function.as_function Differentiable_Function.to_function
       Function.make Function._f_counter].
  by rewrite bump_bump.
Qed.

(** C9. Reading a counter that was not initialised fails on the assertion
    that guards the reader, a precondition violation that ends the run;
    after [initialize_counter] the read succeeds, with zero at first and
    with the count of the evaluations made since. *)
Theorem counter_read_precondition F G st :
  (Function._f_counter F = None ->
   exists e, Function.f_counter F st = Abort e /\ PreconditionViolation e) /\
  (Differentiable_Function._f_counter G = None ->
   exists e, Differentiable_Function.f_counter G st = Abort e /\ PreconditionViolation e) /\
  (Differentiable_Function._df_counter G = None ->
   exists e, Differentiable_Function.df_counter G st = Abort e /\ PreconditionViolation e) /\
  (exists st', (F' ← Function.initialize_counter F; Function.f_counter F') st = Ret 0 st') /\
  (exists st',
     (G' ← Differentiable_Function.initialize_counter G;
      a ← Differentiable_Function.f_counter G';
      b ← Differentiable_Function.df_counter G';
      mret (a, b)) st = Ret (0, 0) st') /\
  (forall F' st' (es : list (Function.t D C * D)),
     Function.initialize_counter F st = Ret F' st' ->
     Forall (fun e => Function._f_counter e.1 = Function._f_counter F') es ->
     exists st'',
       (_ ← run_evaluations es; Function.f_counter F') st' =
       Ret (size_t_add (length es) 0) st'') /\
  (forall G' st' (cs : list call),
     Differentiable_Function.initialize_counter G st = Ret G' st' ->
     Forall (through_alias G') cs ->
     exists st'',
       (_ ← run_calls cs;
        a ← Differentiable_Function.f_counter G';
        b ← Differentiable_Function.df_counter G';
        mret (a, b)) st' =
       Ret (size_t_add (value_evaluations cs) 0,
            size_t_add (derivative_evaluations cs) 0) st'').
Proof.
  split; [|split; [|split; [|split; [|split; [|split]]]]].
  - intros HF. exists "_f_counter"%string. split; [|by left].
    unfold Function.f_counter. by rewrite HF.
  - intros HG. exists "_f_counter"%string. split; [|by left].
    unfold Differentiable_Function.f_counter. by rewrite HG.
  - intros HG. exists "_df_counter"%string. split; [|by right].
    unfold Differentiable_Function.df_counter. by rewrite HG.
  - eexists. unfold_monad. rewrite Function_initialize_counter_spec.
    pose proof (read_after_evaluations F st [] (Forall_nil_2 _)) as Hr.
    unfold_monad. cbn in Hr. exact Hr.
  - eexists. unfold_monad. rewrite Differentiable_initialize_counter_spec.
    pose proof (read_after_calls G st [] (Forall_nil_2 _)) as Hr.
    unfold_monad. cbn in Hr. exact Hr.
  - intros F' st' es Hinit Hes.
    rewrite Function_initialize_counter_spec in Hinit.
    injection Hinit as <- <-. eexists.
    by rewrite (read_after_evaluations F st es Hes).
  - intros G' st' cs Hinit Hcs.
    rewrite Differentiable_initialize_counter_spec in Hinit.
    injection Hinit as <- <-. eexists.
    by rewrite (read_after_calls G st cs Hcs).
Qed.
End Counter_Claims.

Section Sharing.
Context {T D C Df : Type}.
Implicit Types (F : Function.t D C) (G : Differentiable_Function.t D C Df).
Implicit Types (st : State T) (x : D).

Lemma bump_app p n (h tl : list N) :
  (forall l, p = Some l -> (l < length h)%nat) ->
  bump p n (h ++ tl) = bump p n h ++ tl.
Proof.
  destruct p as [l|]; [|done]. intros Hl. cbn [bump].
  apply alter_app_l. by apply Hl.
Qed.

(** C10. [initialize_counter] gives the instance a new cell that holds
    zero; the instances copied or downgraded from it before keep the cell
    they had: what they evaluate afterwards is counted in the old cell and
    the new counter still reads zero, and the old cell keeps its count
    where a reset in place would have cleared it. *)
Theorem initialize_counter_installs_new_cell F G st
    (es : list (Function.t D C * D)) (cs : list call) :
  valid_pointer (Function._f_counter F) st ->
  valid_pointer (Differentiable_Function._f_counter G) st ->
  valid_pointer (Differentiable_Function._df_counter G) st ->
  Forall (fun e => Function._f_counter e.1 = Function._f_counter F) es ->
  Forall (through_alias G) cs ->
  (exists F' st1 st2,
     Function.initialize_counter F st = Ret F' st1 /\
     Function._f_counter F' = Some (length (counters st)) /\
     Function._f_counter F' <> Function._f_counter F /\
     counters st1 = counters st ++ [0] /\
     run_evaluations es st1 = Ret tt st2 /\
     counters st2 = bump (Function._f_counter F) (length es) (counters st) ++ [0] /\
     Function.f_counter F' st2 = Ret 0 st2) /\
  (exists G' st1 st2,
     Differentiable_Function.initialize_counter G st = Ret G' st1 /\
     Differentiable_Function._f_counter G' = Some (length (counters st)) /\
     Differentiable_Function._df_counter G' = Some (S (length (counters st))) /\
     Differentiable_Function._f_counter G' <> Differentiable_Function._f_counter G /\
     Differentiable_Function._df_counter G' <> Differentiable_Function._df_counter G /\
     Function._f_counter (Differentiable_Function.as_function G) =
       Differentiable_Function._f_counter G /\
     counters st1 = counters st ++ [0; 0] /\
     run_calls cs st1 = Ret tt st2 /\
     counters st2 =
       bump (Differentiable_Function._df_counter G) (derivative_evaluations cs)
         (bump (Differentiable_Function._f_counter G) (value_evaluations cs)
            (counters st)) ++ [0; 0] /\
     Differentiable_Function.f_counter G' st2 = Ret 0 st2 /\
     Differentiable_Function.df_counter G' st2 = Ret 0 st2).
Proof.
  intros HF HGf HGdf Hes Hcs. split.
  - eexists _, _, _. rewrite Function_initialize_counter_spec.
    split; [done|]. split; [done|].
    split. { cbn. intros Heq. symmetry in Heq. apply HF in Heq. lia. }
    split; [done|].
    rewrite (run_evaluations_spec _ _ _ Hes). split; [done|].
    cbn [counters cerr]. rewrite bump_app by done. split; [done|].
    erewrite Function_f_counter_spec by done. cbn [counters].
    rewrite <- (length_bump (Function._f_counter F) (length es) (counters st)).
    by rewrite lookup_fresh_cell.
  - eexists _, _, _. rewrite Differentiable_initialize_counter_spec.
    split; [done|]. split; [done|]. split; [done|].
    split. { cbn. intros Heq. symmetry in Heq. apply HGf in Heq. lia. }
    split. { cbn. intros Heq. symmetry in Heq. apply HGdf in Heq. lia. }
    split; [done|]. split; [done|].
    rewrite (run_calls_spec _ _ _ Hcs). split; [done|].
    cbn [counters cerr]. rewrite bump_app by done.
    rewrite bump_app by (intros l Hl; rewrite length_bump; by apply HGdf).
    split; [done|].
    set (h := bump _ _ (bump _ _ _)).
    assert (length h = length (counters st)) as Hlen
      by (unfold h; by rewrite !length_bump).
    split.
    + erewrite Differentiable_f_counter_spec by done. cbn [counters].
      by rewrite <- Hlen, lookup_fresh_cell.
    + erewrite Differentiable_df_counter_spec by done. cbn [counters].
      replace (h ++ [0; 0]) with ((h ++ [0]) ++ [0]) by (by rewrite <- app_assoc).
      replace (S (length (counters st))) with (length (h ++ [0]))
        by (rewrite length_app; cbn; lia).
      by rewrite lookup_fresh_cell.
Qed.
End Sharing.

(** ** Validation of the configuration values *)

Section Validation.
Context {T : Type} `{Scalar T}.
Local Open Scope scalar_scope.

Lemma Assert_In_01_Strict_spec (t : T) (st : State T) :
  Assert_In_01_Strict t st =
  if 0 <? t then if t <? 1 then Ret tt st else Abort "t < 1" else Abort "t > 0".
Proof.
  unfold Assert_In_01_Strict, assert. unfold_monad. by destruct (0 <? t).
Qed.

Lemma Assert_Positive_spec (t : T) (st : State T) :
  Assert_Positive t st = if 0 <? t then Ret tt st else Abort "t > 0".
Proof. reflexivity. Qed.

Lemma supply_accepts (a : supplied T) (st : State T) :
  (validated a = false \/ in_declared_range a = true) ->
  supply a st = Ret (stored a) st.
Proof.
  destruct a as [f|v|v|n|v|b]; cbn [validated in_declared_range supply stored];
    intros [?|Hr]; try done;
    unfold Adam_Beta_1, Adam_Beta_2, Absolute_Epsilon, Named_Assert_Type;
    unfold_monad;
    rewrite ?Assert_In_01_Strict_spec, ?Assert_Positive_spec.
  - apply andb_true_iff in Hr as [-> ->]. done.
  - apply andb_true_iff in Hr as [-> ->]. done.
  - by rewrite Hr.
Qed.

Lemma supply_rejects (a : supplied T) (st : State T) :
  validated a = true -> in_declared_range a = false ->
  exists e, supply a st = Abort e /\ InvalidConfiguration e.
Proof.
  destruct a as [f|v|v|n|v|b]; cbn [validated in_declared_range supply];
    intros ? Hr; try done;
    unfold Adam_Beta_1, Adam_Beta_2, Absolute_Epsilon, Named_Assert_Type;
    unfold_monad;
    rewrite ?Assert_In_01_Strict_spec, ?Assert_Positive_spec.
  - destruct (0 <? v); [cbn in Hr; rewrite Hr|];
      eexists; (split; [done|]); [by right|by left].
  - destruct (0 <? v); [cbn in Hr; rewrite Hr|];
      eexists; (split; [done|]); [by right|by left].
  - rewrite Hr. eexists. split; [done|]. by left.
Qed.

Lemma supply_cases (a : supplied T) (st : State T) :
  supply a st = Ret (stored a) st \/
  exists e, supply a st = Abort e /\ InvalidConfiguration e.
Proof.
  destruct (validated a) eqn:Hv; [|left; apply supply_accepts; by left].
  destruct (in_declared_range a) eqn:Hr; [left; apply supply_accepts; by right|].
  right. by apply supply_rejects.
Qed.

Lemma mapM_supply_cons (b : supplied T) (args : list (supplied T)) (st : State T) :
  mapM supply (b :: args) st =
  (y ← supply b; k ← mapM supply args; mret (y :: k)) st.
Proof. reflexivity. Qed.

Lemma mapM_supply_rejects (args : list (supplied T)) (a : supplied T) (st : State T) :
  a ∈ args -> validated a = true -> in_declared_range a = false ->
  exists e, mapM supply args st = Abort e /\ InvalidConfiguration e.
Proof.
  intros Hin Hv Hr. induction args as [|b args IH]; [by apply elem_of_nil in Hin|].
  apply elem_of_cons in Hin as [<-|Hin].
  - destruct (supply_rejects a st Hv Hr) as (e & Heq & He). exists e.
    rewrite mapM_supply_cons. by rewrite (bind_Abort _ _ _ _ Heq).
  - destruct (supply_cases b st) as [Hb|(e & Hb & He)].
    + destruct (IH Hin) as (e & Heq & He). exists e.
      rewrite mapM_supply_cons, (bind_Ret _ _ _ _ _ Hb).
      by rewrite (bind_Abort _ _ _ _ Heq).
    + exists e. rewrite mapM_supply_cons. by rewrite (bind_Abort _ _ _ _ Hb).
Qed.
End Validation.

(** C8, as stated, at a value that the code accepts: zero for the maximum
    of iterations is outside the declared range (a positive integer), it is
    taken as supplied, and the solver then runs and returns [false]. *)
Lemma maximum_iterations_is_not_validated :
  in_declared_range (T:=float) (_maximimum_iterations_ 0) = false /\
  supply (T:=float) (_maximimum_iterations_ 0) (mkState [] []) =
    Ret (arg_maximimum_iterations 0) (mkState [] []) /\
  Adam_optimize_call 1 (Rosenbrock 10%float) [2%float; 2%float]
    [_maximimum_iterations_ 0] (mkState [] []) =
    Ret (false, [2%float; 2%float]) (mkState [] []).
Proof. split; [reflexivity|]. split; [reflexivity|]. vm_compute. reflexivity. Qed.

(** C8 (amended). A value supplied for beta_1, beta_2 or the absolute
    epsilon outside its range (the open interval (0,1) for the betas,
    positive for the epsilon) fails on the assertion of its validator at
    the point where it is supplied, so that a call of [Adam_optimize] with
    it among its arguments fails before the solver is entered; the same
    holds where the internal epsilon is built.  A value in its range, and
    any value of a parameter that has no validator (the maximum of
    iterations, the schedule, the verbosity), is stored as supplied.  In
    [double], beta_1 = 1.0 fails on [t < 1] and beta_1 = 0.0 on [t > 0]. *)
Theorem validated_values_checked_when_supplied :
  (forall (T : Type) (S : Scalar T) (a : supplied T) (st : State T),
     (validated a = true -> in_declared_range a = false ->
      (exists e, supply a st = Abort e /\ InvalidConfiguration e) /\
      (forall fuel objective_function x_init args,
         a ∈ args ->
         exists e,
           Adam_optimize_call fuel objective_function x_init args st = Abort e /\
           InvalidConfiguration e)) /\
     (validated a = false \/ in_declared_range a = true ->
      supply a st = Ret (stored a) st) /\
     (forall v : T,
        (0 <? v)%sc && (v <? 1)%sc = false ->
        exists e, Adam_Internal_Epsilon v st = Abort e /\ InvalidConfiguration e)) /\
  (forall st : State float,
     supply (_Adam_beta_1_ 1%float) st = Abort "t < 1" /\
     supply (_Adam_beta_1_ 0%float) st = Abort "t > 0").
Proof.
  split; [|done].
  intros T S a st. split; [|split].
  - intros Hv Hr. split; [by apply supply_rejects|].
    intros fuel objective_function x_init args Hin.
    destruct (mapM_supply_rejects args a st Hin Hv Hr) as (e & Heq & He).
    exists e. split; [|done]. unfold Adam_optimize_call.
    by rewrite (bind_Abort _ _ _ _ Heq).
  - apply supply_accepts.
  - intros v Hr. unfold Adam_Internal_Epsilon, Named_Assert_Type. unfold_monad.
    rewrite Assert_In_01_Strict_spec.
    destruct (0 <? v)%sc; [cbn in Hr; rewrite Hr|];
      eexists; (split; [done|]); [by right|by left].
Qed.

Lemma validated_values_checked_when_supplied_witness :
  exists e,
    Adam_optimize_call 5 (Rosenbrock 10%float) [2%float; 2%float]
      [_verbose_ true; _Adam_beta_2_ 1.5%float] (mkState [] []) = Abort e /\
    InvalidConfiguration e.
Proof.
  destruct validated_values_checked_when_supplied as [Hgen _].
  destruct (Hgen float double (_Adam_beta_2_ 1.5%float) (mkState [] []))
    as [Hrej _].
  destruct Hrej as [_ Hcall]; [reflexivity|vm_compute; reflexivity|].
  apply Hcall. apply list_elem_of_In. cbn. auto.
Defined.

(** ** The counter properties at work *)

Lemma counter_correctness_witness :
  exists st'',
    (_ ← run_calls [via_f example_function_counting 1;
                    via_f_df example_function_counting 2;
                    via_Function (Differentiable_Function.as_function
                                    example_function_counting) 3;
                    via_df example_function_counting 4];
     a ← Differentiable_Function.f_counter example_function_counting;
     b ← Differentiable_Function.df_counter example_function_counting;
     mret (a, b)) (mkState [0; 0] ([] : list (line unit))) =
    Ret (3, 2) st''.
Proof.
  destruct (counter_correctness (T:=unit)
              (Differentiable_Function.as_function example_function)
              example_function 0 (mkState [] []))
    as (_ & _ & _ & _ & _ & Hcalls).
  apply (Hcalls example_function_counting (mkState [0; 0] [])
           [via_f example_function_counting 1;
            via_f_df example_function_counting 2;
            via_Function (Differentiable_Function.as_function
                            example_function_counting) 3;
            via_df example_function_counting 4]).
  - reflexivity.
  - repeat constructor.
  - vm_compute. reflexivity.
  - vm_compute. reflexivity.
Defined.

Lemma counter_read_precondition_witness :
  exists e,
    Differentiable_Function.df_counter example_function
      (mkState [] ([] : list (line unit))) = Abort e /\
    PreconditionViolation e.
Proof.
  destruct (counter_read_precondition (T:=unit)
              (Differentiable_Function.as_function example_function)
              example_function (mkState [] []))
    as (_ & _ & Hdf & _).
  apply Hdf. reflexivity.
Defined.

Lemma initialize_counter_installs_new_cell_witness :
  exists F' st1 st2,
    Function.initialize_counter
      (Differentiable_Function.as_function example_function_counting)
      (mkState [5; 3] ([] : list (line unit))) = Ret F' st1 /\
    Function._f_counter F' = Some 2%nat /\
    Function._f_counter F' <>
      Function._f_counter (Differentiable_Function.as_function example_function_counting) /\
    counters st1 = [5; 3] ++ [0] /\
    run_evaluations
      [(Differentiable_Function.as_function example_function_counting, 1);
       (Differentiable_Function.as_function example_function_counting, 2)] st1 =
      Ret tt st2 /\
    counters st2 = bump (Some 0%nat) 2 [5; 3] ++ [0] /\
    Function.f_counter F' st2 = Ret 0 st2.
Proof.
  apply (initialize_counter_installs_new_cell (T:=unit)
           (Differentiable_Function.as_function example_function_counting)
           example_function_counting (mkState [5; 3] [])
           [(Differentiable_Function.as_function example_function_counting, 1);
            (Differentiable_Function.as_function example_function_counting, 2)]
           [via_f_df example_function_counting 7]).
  - intros l [= <-]. cbn. lia.
  - intros l [= <-]. cbn. lia.
  - intros l [= <-]. cbn. lia.
  - repeat constructor.
  - repeat constructor.
Defined.

(** ** Scalars *)

Lemma SFmul_opp_l prec emax a b :
  SFmul prec emax (SFopp a) b = SFopp (SFmul prec emax a b).
Proof.
  destruct a as [sa|sa| |sa ma ea], b as [sb|sb| |sb mb eb]; cbn [SFmul SFopp];
    try reflexivity.
  all: try (destruct sa, sb; reflexivity).
  unfold binary_round_aux.
  destruct (shr_fexp prec emax (Z.pos (ma * mb)) (ea + eb) loc_Exact) as [mrs' e'].
  destruct (shr_fexp prec emax _ e' loc_Exact) as [mrs'' e''].
  destruct (shr_m mrs'') as [|m|m]; try (destruct sa, sb; reflexivity).
  destruct (Z.leb e'' (emax - prec)); destruct sa, sb; reflexivity.
Qed.

#[global] Instance double_SignedMul : SignedMul float.
Proof.
  intros a b. cbn. apply Prim2SF_inj.
  rewrite mul_spec, !opp_spec, mul_spec. apply SFmul_opp_l.
Qed.

#[global] Instance real_SignedMul : SignedMul R.
Proof. intros a b. cbn. ring. Qed.

#[global] Instance real_ExactArith : ExactArith R.
Proof.
  split; intros; cbn.
  - ring.
  - unfold Rdiv. ring.
Qed.

(** ** Loops *)

Section Loop_Facts.
Context {T St : Type}.
Variable cond : N -> bool.
Variable body : N -> St -> M T (St * bool).

Lemma for_loop_exit fuel i s st :
  cond i = false -> for_loop cond body (S fuel) i s st = Ret (i, s) st.
Proof. intros Hc. cbn [for_loop]. by rewrite Hc. Qed.

Lemma for_loop_break fuel i s s' st st' :
  cond i = true -> body i s st = Ret (s', true) st' ->
  for_loop cond body (S fuel) i s st = Ret (i, s') st'.
Proof.
  intros Hc Hb. cbn [for_loop]. rewrite Hc.
  by rewrite (bind_Ret _ _ _ _ _ Hb).
Qed.

Lemma for_loop_continue fuel i s s' st st' :
  cond i = true -> body i s st = Ret (s', false) st' ->
  for_loop cond body (S fuel) i s st =
  for_loop cond body fuel (size_t_incr i) s' st'.
Proof.
  intros Hc Hb. cbn [for_loop]. rewrite Hc.
  by rewrite (bind_Ret _ _ _ _ _ Hb).
Qed.
End Loop_Facts.

Lemma size_t_incr_small (i : N) :
  i + 1 < size_t_modulus -> size_t_incr i = i + 1.
Proof. intros Hi. unfold size_t_incr. by apply N.mod_small. Qed.

(** ** The root finders *)

Section Root_Loop.
Context {T : Type} `{Scalar T}.
Local Open Scope scalar_scope.
Variable step : T -> T * T.
Variable epsilon : T.
Variable max_iter : N.
Variables p q : option loc.
Variable body : N -> T * bool -> M T (T * bool * bool).

Hypothesis body_spec : forall iter x hc st,
  body iter (x, hc) st =
  Ret ((x + (step x).1, converged_at step epsilon x), converged_at step epsilon x)
      (mkState (bump q 1 (bump p 1 (counters st)))
               (cerr st ++ [(iter, x + (step x).1, (step x).2)])).

Lemma root_loop_refines (n fuel : nat) (iter : N) (x : T) (st : State T) :
  (n < fuel)%nat ->
  (iter + N.of_nat n = max_iter + 1)%N ->
  (max_iter + 1 < size_t_modulus)%N ->
  let r := root_iteration_spec step epsilon n iter x in
  exists i',
    for_loop (fun it => (it <=? max_iter)%N) body fuel iter (x, false) st =
    Ret (i', (r.1.2, r.1.1))
        (mkState (bump q (length r.2) (bump p (length r.2) (counters st)))
                 (cerr st ++ r.2)).
Proof.
  revert fuel iter x st. induction n as [|n IH]; intros fuel iter x st Hfuel Hi Hmax.
  - destruct fuel as [|fuel]; [lia|]. cbv zeta.
    cbn [root_iteration_spec fst snd length]. exists iter.
    rewrite for_loop_exit by (apply N.leb_gt; lia).
    rewrite !bump_0, app_nil_r. by destruct st.
  - destruct fuel as [|fuel]; [lia|].
    assert ((iter <=? max_iter)%N = true) as Hc by (apply N.leb_le; lia).
    cbv zeta. cbn [root_iteration_spec].
    pose proof (body_spec iter x false st) as Hb. unfold converged_at in Hb.
    destruct (step x) as [delta f] eqn:Hstep. cbn [fst snd] in Hb.
    destruct (s_abs delta <? epsilon) eqn:Hconv.
    + exists iter. cbn [fst snd length].
      by erewrite for_loop_break.
    + erewrite for_loop_continue; [|done|exact Hb].
      rewrite size_t_incr_small by lia.
      destruct (IH fuel (iter + 1)%N (x + delta)
                  (mkState (bump q 1 (bump p 1 (counters st)))
                           (cerr st ++ [(iter, x + delta, f)])))
        as [i' Hloop]; [lia|lia|done|].
      exists i'. rewrite Hloop. cbn [counters cerr].
      destruct (root_iteration_spec step epsilon n (iter + 1)%N (x + delta))
        as [[b xf] ls]. cbn [fst snd length].
      f_equal. f_equal.
      * rewrite (bump_comm p q (length ls) 1), !bump_bump.
        by rewrite !Nat.add_1_r.
      * by rewrite <- app_assoc.
Qed.
End Root_Loop.

Section Root_Specification_Facts.
Context {T : Type} `{Scalar T}.
Local Open Scope scalar_scope.
Variable step : T -> T * T.
Variable epsilon : T.

Lemma root_iteration_spec_length n iter x :
  (length (root_iteration_spec step epsilon n iter x).2 <= n)%nat.
Proof.
  revert iter x. induction n as [|n IH]; intros iter x; cbn [root_iteration_spec].
  - cbn. lia.
  - destruct (step x) as [delta f]. destruct (s_abs delta <? epsilon).
    + cbn. lia.
    + specialize (IH (iter + 1)%N (x + delta)).
      destruct (root_iteration_spec step epsilon n (iter + 1)%N (x + delta))
        as [[b xf] ls]. cbn in *. lia.
Qed.

Lemma root_iteration_spec_final n iter x :
  let r := root_iteration_spec step epsilon n iter x in
  r.1.2 = iterate_spec step (length r.2) x.
Proof.
  revert iter x. induction n as [|n IH]; intros iter x; cbn [root_iteration_spec].
  - reflexivity.
  - cbv zeta. destruct (step x) as [delta f] eqn:Hstep.
    destruct (s_abs delta <? epsilon).
    + cbn. by rewrite Hstep.
    + specialize (IH (iter + 1)%N (x + delta)). cbv zeta in IH.
      destruct (root_iteration_spec step epsilon n (iter + 1)%N (x + delta))
        as [[b xf] ls]. cbn in *. by rewrite Hstep.
Qed.

Lemma root_iteration_spec_reports n iter x k :
  let r := root_iteration_spec step epsilon n iter x in
  (k < length r.2)%nat ->
  r.2 !! k = Some ((iter + N.of_nat k)%N, iterate_spec step (S k) x,
                   (step (iterate_spec step k x)).2).
Proof.
  revert iter x k. induction n as [|n IH]; intros iter x k; cbn [root_iteration_spec].
  - cbn. lia.
  - cbv zeta. destruct (step x) as [delta f] eqn:Hstep.
    destruct (s_abs delta <? epsilon).
    + cbn [fst snd length]. intros Hk. assert (k = 0%nat) as -> by lia.
      cbn. rewrite Hstep. cbn. by rewrite N.add_0_r.
    + specialize (IH (iter + 1)%N (x + delta)). cbv zeta in IH.
      destruct (root_iteration_spec step epsilon n (iter + 1)%N (x + delta))
        as [[b xf] ls]. cbn [fst snd length] in *. intros Hk.
      destruct k as [|k].
      * cbn. rewrite Hstep. cbn. by rewrite N.add_0_r.
      * cbn [lookup list_lookup]. rewrite IH by lia.
        cbn [iterate_spec]. rewrite Hstep. cbn [fst]. do 3 f_equal. lia.
Qed.

Lemma root_iteration_spec_converged n iter x :
  (root_iteration_spec step epsilon n iter x).1.1 = true <->
  exists k, (k < n)%nat /\ converged_at step epsilon (iterate_spec step k x) = true.
Proof.
  revert iter x. induction n as [|n IH]; intros iter x; cbn [root_iteration_spec].
  - cbn. split; [done|]. intros (k & Hk & _). lia.
  - destruct (step x) as [delta f] eqn:Hstep.
    destruct (s_abs delta <? epsilon) eqn:Hconv.
    + cbn. split; [|done]. intros _. exists 0%nat. split; [lia|].
      cbn. unfold converged_at. by rewrite Hstep.
    + specialize (IH (iter + 1)%N (x + delta)).
      destruct (root_iteration_spec step epsilon n (iter + 1)%N (x + delta))
        as [[b xf] ls]. cbn [fst snd] in *. rewrite IH. split.
      * intros (k & Hk & Hc). exists (S k). split; [lia|].
        cbn. by rewrite Hstep.
      * intros (k & Hk & Hc). destruct k as [|k].
        -- cbn in Hc. unfold converged_at in Hc. rewrite Hstep in Hc.
           cbn in Hc. congruence.
        -- exists k. split; [lia|]. cbn in Hc. by rewrite Hstep in Hc.
Qed.

Lemma root_iteration_spec_first n iter x k :
  let r := root_iteration_spec step epsilon n iter x in
  (S k < length r.2)%nat ->
  converged_at step epsilon (iterate_spec step k x) = false.
Proof.
  revert iter x k. induction n as [|n IH]; intros iter x k; cbn [root_iteration_spec].
  - cbn. lia.
  - cbv zeta. destruct (step x) as [delta f] eqn:Hstep.
    destruct (s_abs delta <? epsilon) eqn:Hconv.
    + cbn. lia.
    + specialize (IH (iter + 1)%N (x + delta)). cbv zeta in IH.
      destruct (root_iteration_spec step epsilon n (iter + 1)%N (x + delta))
        as [[b xf] ls]. cbn [fst snd length] in *. intros Hk.
      destruct k as [|k].
      * cbn. unfold converged_at. by rewrite Hstep.
      * cbn [iterate_spec]. rewrite Hstep. cbn [fst]. apply IH. lia.
Qed.

Lemma root_iteration_spec_exhausted n iter x :
  let r := root_iteration_spec step epsilon n iter x in
  r.1.1 = false -> length r.2 = n.
Proof.
  revert iter x. induction n as [|n IH]; intros iter x; cbn [root_iteration_spec].
  - done.
  - cbv zeta. destruct (step x) as [delta f] eqn:Hstep.
    destruct (s_abs delta <? epsilon) eqn:Hconv; [done|].
    specialize (IH (iter + 1)%N (x + delta)). cbv zeta in IH.
    destruct (root_iteration_spec step epsilon n (iter + 1)%N (x + delta))
      as [[b xf] ls]. cbn [fst snd length] in *. intros Hb. by rewrite IH.
Qed.
Lemma root_iteration_spec_last n iter x :
  let r := root_iteration_spec step epsilon n iter x in
  r.1.1 = true ->
  exists k, length r.2 = S k /\
    converged_at step epsilon (iterate_spec step k x) = true.
Proof.
  revert iter x. induction n as [|n IH]; intros iter x; cbn [root_iteration_spec].
  - done.
  - cbv zeta. destruct (step x) as [delta f] eqn:Hstep.
    destruct (s_abs delta <? epsilon) eqn:Hconv.
    + intros _. exists 0%nat. split; [done|].
      cbn. unfold converged_at. by rewrite Hstep.
    + specialize (IH (iter + 1)%N (x + delta)). cbv zeta in IH.
      destruct (root_iteration_spec step epsilon n (iter + 1)%N (x + delta))
        as [[b xf] ls]. cbn [fst snd length] in *. intros Hb.
      destruct (IH Hb) as (k & Hlen & Hk). exists (S k). split; [by rewrite Hlen|].
      cbn [iterate_spec]. by rewrite Hstep.
Qed.
End Root_Specification_Facts.

Section Root_Finders.
Context {T : Type} `{Scalar T}.
Local Open Scope scalar_scope.

Lemma Newton_body_spec (f_obj : Differentiable_Function.t T T T) epsilon iter x hc st :
  let step := Newton_step_spec f_obj in
  Newton_body f_obj epsilon iter (x, hc) st =
  Ret ((x + (step x).1, converged_at step (s_of_double epsilon) x),
       converged_at step (s_of_double epsilon) x)
      (mkState (bump (Differentiable_Function._df_counter f_obj) 1
                  (bump (Differentiable_Function._f_counter f_obj) 1 (counters st)))
               (cerr st ++ [(iter, x + (step x).1, (step x).2)])).
Proof.
  cbv zeta. unfold Newton_body, converged_at, Newton_step_spec.
  erewrite bind_Ret by apply Differentiable_f_df_spec.
  by destruct (Differentiable_Function.Interface_f_df _ x) as [f df].
Qed.

Lemma Steffensen_body_spec `{!SignedMul T} (f_obj : Function.t T T) epsilon iter x hc st :
  let step := Steffensen_step_spec f_obj in
  Steffensen_body f_obj epsilon iter (x, hc) st =
  Ret ((x + (step x).1, converged_at step (s_of_double epsilon) x),
       converged_at step (s_of_double epsilon) x)
      (mkState (bump (Function._f_counter f_obj) 1
                  (bump (Function._f_counter f_obj) 1 (counters st)))
               (cerr st ++ [(iter, x + (step x).1, (step x).2)])).
Proof.
  cbv zeta. unfold Steffensen_body, converged_at, Steffensen_step_spec.
  erewrite bind_Ret by apply Function_f_spec.
  erewrite bind_Ret by apply Function_f_spec.
  cbn [fst snd counters cerr]. by rewrite neg_mul_l.
Qed.

(** C2. [Newton] runs the state machine of the specification on the
    caller's [x]: every iteration takes [(f, df)] from one combined
    evaluation at [x], steps by [delta = -f/df] and reports; it returns
    [true] exactly when [|delta| < epsilon] is met at one of the first
    [max_iter] iterates, with [x] advanced through that step, and [false]
    with [x] advanced [max_iter] times otherwise.  The defaults are
    [epsilon = 1e-10] and [max_iter = 20].  The cap is below the largest
    [size_t], at which the test [iter <= max_iter] cannot fail. *)
Theorem Newton_state_machine (f_obj : Differentiable_Function.t T T T)
    (x : T) (epsilon : float) (max_iter : N) (fuel : nat) (st : State T) :
  (max_iter < size_t_modulus - 1)%N ->
  (N.to_nat max_iter < fuel)%nat ->
  let step := Newton_step_spec f_obj in
  let r := root_iteration_spec step (s_of_double epsilon) (N.to_nat max_iter) 1 x in
  Newton fuel f_obj x epsilon max_iter st =
    Ret (r.1.1, r.1.2)
        (mkState (bump (Differentiable_Function._df_counter f_obj) (length r.2)
                    (bump (Differentiable_Function._f_counter f_obj) (length r.2)
                       (counters st)))
                 (cerr st ++ r.2)) /\
  (forall y, step y =
     let '(f, df) :=
       Differentiable_Function.Interface_f_df (Differentiable_Function._pimpl f_obj) y in
     (- f / df, f)) /\
  (r.1.1 = true <->
   exists k, (k < N.to_nat max_iter)%nat /\
     (s_abs (step (iterate_spec step k x)).1 <? s_of_double epsilon) = true) /\
  r.1.2 = iterate_spec step (length r.2) x /\
  (r.1.1 = false -> length r.2 = N.to_nat max_iter) /\
  (r.1.1 = true ->
   exists k, length r.2 = S k /\
     (s_abs (step (iterate_spec step k x)).1 <? s_of_double epsilon) = true) /\
  (forall k, (S k < length r.2)%nat ->
     (s_abs (step (iterate_spec step k x)).1 <? s_of_double epsilon) = false) /\
  Newton_default fuel f_obj x = Newton fuel f_obj x default_epsilon default_max_iter /\
  default_epsilon = 1e-10%float /\ default_max_iter = 20%N.
Proof.
  intros Hmax Hfuel step r.
  split; [|split; [done|split; [|split; [|split; [|split; [|split; [|done]]]]]]].
  - destruct (root_loop_refines step (s_of_double epsilon) max_iter
                (Differentiable_Function._f_counter f_obj)
                (Differentiable_Function._df_counter f_obj)
                (Newton_body f_obj epsilon)
                (fun iter x hc st => Newton_body_spec f_obj epsilon iter x hc st)
                (N.to_nat max_iter) fuel 1%N x st) as [i' Hloop]; [done|lia|lia|].
    unfold Newton. by erewrite bind_Ret by exact Hloop.
  - apply root_iteration_spec_converged.
  - apply root_iteration_spec_final.
  - apply root_iteration_spec_exhausted.
  - apply root_iteration_spec_last.
  - apply root_iteration_spec_first.
Qed.

(** C3. [Steffensen] runs the same state machine with the step
    [delta = -f^2 / (g - f)], where [f] is the value at [x] and [g] the
    value at [x + f]: two evaluations of the value per iteration, counted
    in the value counter of the function, and no other cell of the store
    changes, so that no evaluation of a derivative is counted; the function
    it takes is a plain [Function].  The cap is below the largest
    [size_t]. *)
Theorem Steffensen_state_machine `{!SignedMul T} (f_obj : Function.t T T)
    (x : T) (epsilon : float) (max_iter : N) (fuel : nat) (st : State T) :
  (max_iter < size_t_modulus - 1)%N ->
  (N.to_nat max_iter < fuel)%nat ->
  let step := Steffensen_step_spec f_obj in
  let r := root_iteration_spec step (s_of_double epsilon) (N.to_nat max_iter) 1 x in
  exists st',
    Steffensen fuel f_obj x epsilon max_iter st = Ret (r.1.1, r.1.2) st' /\
    counters st' = bump (Function._f_counter f_obj) (2 * length r.2) (counters st) /\
    (forall l, Function._f_counter f_obj <> Some l ->
       counters st' !! l = counters st !! l) /\
    cerr st' = cerr st ++ r.2 /\
    (forall y, step y =
       let f := Function.Interface_f (Function._pimpl f_obj) y in
       let g := Function.Interface_f (Function._pimpl f_obj) (y + f) in
       (- (f * f) / (g - f), f)) /\
    (r.1.1 = true <->
     exists k, (k < N.to_nat max_iter)%nat /\
       (s_abs (step (iterate_spec step k x)).1 <? s_of_double epsilon) = true) /\
    r.1.2 = iterate_spec step (length r.2) x /\
    (r.1.1 = false -> length r.2 = N.to_nat max_iter) /\
    (r.1.1 = true ->
     exists k, length r.2 = S k /\
       (s_abs (step (iterate_spec step k x)).1 <? s_of_double epsilon) = true) /\
    (forall k, (S k < length r.2)%nat ->
       (s_abs (step (iterate_spec step k x)).1 <? s_of_double epsilon) = false) /\
    Steffensen_default fuel f_obj x =
      Steffensen fuel f_obj x default_epsilon default_max_iter.
Proof.
  intros Hmax Hfuel step r.
  destruct (root_loop_refines step (s_of_double epsilon) max_iter
              (Function._f_counter f_obj) (Function._f_counter f_obj)
              (Steffensen_body f_obj epsilon)
              (fun iter x hc st => Steffensen_body_spec f_obj epsilon iter x hc st)
              (N.to_nat max_iter) fuel 1%N x st) as [i' Hloop]; [done|lia|lia|].
  eexists. split.
  { unfold Steffensen. by erewrite bind_Ret by exact Hloop. }
  cbn [counters cerr]. rewrite bump_bump.
  split; [by replace (2 * length r.2)%nat with (length r.2 + length r.2)%nat by lia|].
  split; [intros l Hl; by apply lookup_bump_ne|].
  split; [done|]. split; [done|].
  split; [apply root_iteration_spec_converged|].
  split; [apply root_iteration_spec_final|].
  split; [apply root_iteration_spec_exhausted|].
  split; [apply root_iteration_spec_last|].
  split; [apply root_iteration_spec_first|done].
Qed.
End Root_Finders.

(** ** Adam *)

Section Adam_Facts.
Context {T : Type} `{Scalar T}.
Local Open Scope scalar_scope.
Variable configuration : Adam_Configuration T.
Variable objective_function : Differentiable_Function.t (vector T) T (vector T).

Local Abbreviation cond := (fun k : N => (k <? maximimum_iterations configuration)%N).
Local Abbreviation body := (Adam_body configuration objective_function).

Lemma Adam_body_spec (k : N) (s : Adam_locals T) (st : State T) :
  Adam_body configuration objective_function k s st =
  let x := x_init s in
  let st' := Adam_iteration_effect configuration objective_function k x st in
  if Adam_converged_at configuration objective_function x
  then Ret (mkAdam_locals x (m_k s) (v_k s) true, true) st'
  else
    let '(x', m', v') :=
      Adam_update configuration k (gradient_at objective_function x) x (m_k s) (v_k s) in
    Ret (mkAdam_locals x' m' v' false, false) st'.
Proof.
  destruct s as [x m v hc]. cbn [x_init m_k v_k]. cbv zeta.
  unfold Adam_body, Adam_iteration_effect, Adam_converged_at.
  erewrite bind_Ret by apply Differentiable_df_spec.
  fold (gradient_at objective_function x).
  destruct (norm_2 (gradient_at objective_function x) <? absolute_epsilon configuration)
    eqn:Hconv; cbn [orb].
  - unfold Differentiable_Function.eval_f. unfold_monad.
    rewrite Differentiable_f_spec. cbn [counters cerr print]. done.
  - destruct (verbose configuration && (k mod 10 =? 1)%N).
    + unfold Differentiable_Function.eval_f. unfold_monad.
      rewrite Differentiable_f_spec. cbn [counters cerr print].
      by destruct (Adam_update configuration k _ x m v) as [[x' m'] v'].
    + unfold_monad.
      by destruct (Adam_update configuration k _ x m v) as [[x' m'] v'].
Qed.

(** A run of the loop that ends with the flag set ends at an iterate that
    passes the test, and it went through the body. *)
Lemma for_loop_Adam_converged (fuel : nat) (k k' : N) (s s' : Adam_locals T)
    (st st' : State T) :
  for_loop cond body fuel k s st = Ret (k', s') st' ->
  has_converged s = false ->
  has_converged s' = true ->
  Adam_converged_at configuration objective_function (x_init s') = true /\
  cond k = true.
Proof.
  revert k s st. induction fuel as [|fuel IH]; intros k s st Hrun Hs Hs'; [done|].
  cbn [for_loop] in Hrun.
  destruct (k <? maximimum_iterations configuration)%N eqn:Hc.
  - split; [|done].
    pose proof (Adam_body_spec k s st) as Hb. cbv zeta in Hb.
    destruct (Adam_converged_at configuration objective_function (x_init s)) eqn:Hconv.
    + rewrite (bind_Ret _ _ _ _ _ Hb) in Hrun. injection Hrun as <- <- <-. done.
    + destruct (Adam_update configuration k _ (x_init s) (m_k s) (v_k s))
        as [[x' m'] v'].
      rewrite (bind_Ret _ _ _ _ _ Hb) in Hrun.
      by apply IH in Hrun as [? _].
  - injection Hrun as <- <- <-. congruence.
Qed.

(** The loop from the index [k], with [n] indices left below the maximum. *)
Lemma for_loop_Adam_run (n fuel : nat) (k : N) (x m v : vector T) (st : State T) :
  N.to_nat (maximimum_iterations configuration - k) = n ->
  (n < fuel)%nat ->
  (maximimum_iterations configuration < size_t_modulus)%N ->
  exists k' s' st',
    for_loop cond body fuel k (mkAdam_locals x m v false) st = Ret (k', s') st' /\
    (k <= k')%N /\ (k' <= N.max k (maximimum_iterations configuration))%N /\
    (x_init s', m_k s', v_k s') =
      Adam_updates configuration objective_function (N.to_nat (k' - k)) k x m v /\
    (has_converged s' = false -> k' = N.max k (maximimum_iterations configuration)).
Proof.
  revert fuel k x m v st. induction n as [|n IH]; intros fuel k x m v st Hn Hfuel Hmax.
  - destruct fuel as [|fuel]; [lia|].
    exists k, (mkAdam_locals x m v false), st.
    rewrite for_loop_exit by (apply N.ltb_ge; lia).
    rewrite N.sub_diag. cbn. repeat split; lia.
  - destruct fuel as [|fuel]; [lia|].
    assert ((k <? maximimum_iterations configuration)%N = true) as Hc
      by (apply N.ltb_lt; lia).
    pose proof (Adam_body_spec k (mkAdam_locals x m v false) st) as Hb.
    cbv zeta in Hb. cbn [x_init m_k v_k] in Hb.
    destruct (Adam_converged_at configuration objective_function x) eqn:Hconv.
    + eexists k, _, _. erewrite for_loop_break; [|done|exact Hb].
      rewrite N.sub_diag. cbn. repeat split; try lia. done.
    + destruct (Adam_update configuration k (gradient_at objective_function x) x m v)
        as [[x1 m1] v1] eqn:Hupd.
      erewrite for_loop_continue; [|done|exact Hb].
      rewrite size_t_incr_small by lia.
      destruct (IH fuel (k + 1)%N x1 m1 v1
                  (Adam_iteration_effect configuration objective_function k x st))
        as (k' & s' & st' & Hrun & Hle & Hle' & Htraj & Hend); [lia|lia|done|].
      exists k', s', st'. split; [done|]. split; [lia|]. split; [lia|]. split.
      * rewrite Htraj. replace (N.to_nat (k' - k)) with (S (N.to_nat (k' - (k + 1)))) by lia.
        cbn [Adam_updates]. by rewrite Hupd.
      * intros Hs'. rewrite (Hend Hs'). lia.
Qed.
End Adam_Facts.

Section Adam_Claims.
Context {T : Type} `{Scalar T}.
Local Open Scope scalar_scope.
Variable configuration : Adam_Configuration T.
Variable objective_function : Differentiable_Function.t (vector T) T (vector T).

(** C1. [Adam_optimize] leaves its loop at an index [k'] between 1 and
    the maximum of iterations, after [k' - 1] update steps, which is at most
    [max_iterations - 1]; with [max_iterations = 1] the body is not
    entered: nothing is evaluated or written, [x_init] is unchanged and
    the result is [false].  The maximum is a [size_t]. *)
Theorem Adam_update_steps_bounded (x : vector T) (fuel : nat) (st : State T) :
  (maximimum_iterations configuration < size_t_modulus)%N ->
  (N.to_nat (maximimum_iterations configuration - 1) < fuel)%nat ->
  (exists k' s' st',
     Adam_loop fuel configuration objective_function x st = Ret (k', s') st' /\
     Adam_optimize fuel configuration objective_function x st =
       Ret (has_converged s', x_init s') st' /\
     (1 <= k')%N /\
     (k' - 1 <= maximimum_iterations configuration - 1)%N /\
     (x_init s', m_k s', v_k s') =
       Adam_updates configuration objective_function (N.to_nat (k' - 1)) 1 x
         (replicate (length x) 0) (replicate (length x) 0)) /\
  (maximimum_iterations configuration = 1%N ->
   Adam_optimize fuel configuration objective_function x st = Ret (false, x) st).
Proof.
  intros Hmax Hfuel. split.
  - destruct (for_loop_Adam_run configuration objective_function
                (N.to_nat (maximimum_iterations configuration - 1)) fuel 1%N x
                (replicate (length x) 0) (replicate (length x) 0) st)
      as (k' & s' & st' & Hrun & Hle & Hle' & Htraj & _); [done|done|done|].
    exists k', s', st'. split; [exact Hrun|].
    split. { unfold Adam_optimize. erewrite bind_Ret by exact Hrun. by destruct s'. }
    split; [done|]. split; [lia|done].
  - intros Hone. destruct fuel as [|fuel]; [lia|].
    unfold Adam_optimize, Adam_loop.
    erewrite bind_Ret; [|apply for_loop_exit; by rewrite Hone]. done.
Qed.

Lemma lookup_Adam_update `{!ExactArith T} (k : N) (g x m v : vector T) (i : nat)
    (g_i x_i m_i v_i : T) :
  g !! i = Some g_i -> x !! i = Some x_i -> m !! i = Some m_i -> v !! i = Some v_i ->
  let m_new := beta_1 configuration * m_i + (1 - beta_1 configuration) * g_i in
  let v_new := beta_2 configuration * v_i + (1 - beta_2 configuration) * (g_i * g_i) in
  let m_hat := m_new / (1 - s_pow (beta_1 configuration) k) in
  let v_hat := v_new / (1 - s_pow (beta_2 configuration) k) in
  let r := Adam_update configuration k g x m v in
  r.1.2 !! i = Some m_new /\
  r.2 !! i = Some v_new /\
  r.1.1 !! i =
    Some (x_i - alpha_schedule configuration k * m_hat
                / (s_sqrt v_hat + internal_epsilon configuration)).
Proof.
  intros Hg Hx Hm Hv. cbv zeta. unfold Adam_update. cbn [fst snd].
  unfold valarray_sub, valarray_div, valarray_add_scalar, valarray_sqrt,
    valarray_add, valarray_mul, valarray_scale.
  repeat (progress (rewrite ?lookup_zip_with, ?list_lookup_fmap)).
  rewrite Hg, Hx, Hm, Hv. cbn.
  rewrite !recip_mul, mul_assoc. done.
Qed.

Lemma length_Adam_update (k : N) (g x m v : vector T) (n : nat) :
  length g = n -> length x = n -> length m = n -> length v = n ->
  let r := Adam_update configuration k g x m v in
  length r.1.1 = n /\ length r.1.2 = n /\ length r.2 = n.
Proof.
  intros Hg Hx Hm Hv. cbv zeta. unfold Adam_update. cbn [fst snd].
  unfold valarray_sub, valarray_div, valarray_add_scalar, valarray_sqrt,
    valarray_add, valarray_mul, valarray_scale.
  repeat (progress (rewrite ?length_zip_with, ?length_fmap)). lia.
Qed.


Lemma Adam_rerun (x : vector T) (fuel : nat) (st : State T) :
  (1 <? maximimum_iterations configuration)%N = true ->
  Adam_converged_at configuration objective_function x = true ->
  Adam_optimize (S fuel) configuration objective_function x st =
  Ret (true, x)
      (mkState
         (bump (Differentiable_Function._f_counter objective_function) 1
            (bump (Differentiable_Function._df_counter objective_function) 1 (counters st)))
         (cerr st ++ [(1%N, value_at objective_function x,
                       norm_2 (gradient_at objective_function x))])).
Proof.
  intros Hc Hconv. unfold Adam_optimize, Adam_loop.
  pose proof (Adam_body_spec configuration objective_function 1%N
                (mkAdam_locals x (replicate (length x) 0) (replicate (length x) 0) false)
                st) as Hb.
  cbv zeta in Hb. cbn [x_init m_k v_k] in Hb. rewrite Hconv in Hb.
  erewrite bind_Ret; [|eapply for_loop_break; [exact Hc|exact Hb]].
  unfold Adam_iteration_effect. rewrite Hconv. done.
Qed.

Lemma Adam_converged_result (x0 x : vector T) (fuel : nat) (st st' : State T) :
  Adam_optimize fuel configuration objective_function x0 st = Ret (true, x) st' ->
  (1 <? maximimum_iterations configuration)%N = true /\
  Adam_converged_at configuration objective_function x = true.
Proof.
  unfold Adam_optimize, Adam_loop. unfold_monad. intros Hrun.
  destruct (for_loop _ _ fuel 1%N _ st) as [[k' [x' m' v' hc']] st1| |] eqn:Hloop;
    try done.
  injection Hrun as Hs' Hx Hst.
  apply for_loop_Adam_converged in Hloop as [Hconv Hc]; [|done|done].
  by rewrite Hx in Hconv.
Qed.
End Adam_Claims.

(** ** Running a solver again from the iterate it returned *)

Section Rerun.
Context {T : Type} `{Scalar T}.
Local Open Scope scalar_scope.

Lemma Newton_first_iteration (f_obj : Differentiable_Function.t T T T)
    (x : T) (epsilon : float) (max_iter : N) (fuel : nat) (st : State T) :
  (1 <= max_iter)%N ->
  converged_at (Newton_step_spec f_obj) (s_of_double epsilon) x = true ->
  Newton (S fuel) f_obj x epsilon max_iter st =
  Ret (true, x + (Newton_step_spec f_obj x).1)
      (mkState (bump (Differentiable_Function._df_counter f_obj) 1
                  (bump (Differentiable_Function._f_counter f_obj) 1 (counters st)))
               (cerr st ++ [(1%N, x + (Newton_step_spec f_obj x).1,
                             (Newton_step_spec f_obj x).2)])).
Proof.
  intros Hmax Hconv. unfold Newton.
  pose proof (Newton_body_spec f_obj epsilon 1%N x false st) as Hb.
  cbv zeta in Hb. rewrite Hconv in Hb.
  erewrite bind_Ret; [|eapply for_loop_break; [|exact Hb]]; [done|].
  apply N.leb_le. lia.
Qed.

Lemma Steffensen_first_iteration `{!SignedMul T} (f_obj : Function.t T T)
    (x : T) (epsilon : float) (max_iter : N) (fuel : nat) (st : State T) :
  (1 <= max_iter)%N ->
  converged_at (Steffensen_step_spec f_obj) (s_of_double epsilon) x = true ->
  Steffensen (S fuel) f_obj x epsilon max_iter st =
  Ret (true, x + (Steffensen_step_spec f_obj x).1)
      (mkState (bump (Function._f_counter f_obj) 2 (counters st))
               (cerr st ++ [(1%N, x + (Steffensen_step_spec f_obj x).1,
                             (Steffensen_step_spec f_obj x).2)])).
Proof.
  intros Hmax Hconv. unfold Steffensen.
  pose proof (Steffensen_body_spec f_obj epsilon 1%N x false st) as Hb.
  cbv zeta in Hb. rewrite Hconv, bump_bump in Hb.
  erewrite bind_Ret; [|eapply for_loop_break; [|exact Hb]]; [done|].
  apply N.leb_le. lia.
Qed.
End Rerun.

(** C7, as stated, at two runs in [double].  Steffensen on [x^2 - 4] from
    3 converges to 2, where the function is zero: the rerun from 2 divides
    zero by zero, never converges and leaves a NaN in [x].  Newton on
    [x^2 - 2] from 2 converges to 1.4142135623730951: the rerun from there
    returns [true] with [x] moved to 1.4142135623730949. *)
Lemma root_finder_rerun_moves_iterate :
  returned
    ((r1 ← Steffensen_default 21
             (Differentiable_Function.as_function (square_root 4%float)) 3%float;
      r2 ← Steffensen_default 21
             (Differentiable_Function.as_function (square_root 4%float)) r1.2;
      mret (r1, r2)) (mkState [] [])) =
    Some ((true, 2%float), (false, nan)) /\
  returned
    ((r1 ← Newton_default 21 (square_root 2%float) 2%float;
      r2 ← Newton_default 21 (square_root 2%float) r1.2;
      mret (r1, r2)) (mkState [] [])) =
    Some ((true, 1.4142135623730951%float), (true, 1.4142135623730949%float)) /\
  PrimFloat.eqb 1.4142135623730951%float 1.4142135623730949%float = false.
Proof. repeat split; vm_compute; reflexivity. Qed.

(** C7 (amended).  Adam run again from the iterate of a run that returned
    [true], with the same configuration and objective, meets the test in
    its first iteration: it returns [true], leaves the iterate as it is,
    and has evaluated the gradient and the value once each and written one
    record.  Newton and Steffensen run again take one more step: when the
    step [delta] at the iterate passes [|delta| < epsilon], the rerun
    returns [true] in its first iteration and leaves [x + delta] in the
    iterate. *)
Theorem rerun_from_converged_iterate :
  (forall (T : Type) (ST : Scalar T) (configuration : Adam_Configuration T)
          (objective_function : Differentiable_Function.t (vector T) T (vector T))
          (x0 x : vector T) (fuel fuel' : nat) (st st2 : State T),
     returned (Adam_optimize fuel configuration objective_function x0 st) =
       Some (true, x) ->
     Adam_optimize (S fuel') configuration objective_function x st2 =
       Ret (true, x)
           (mkState
              (bump (Differentiable_Function._f_counter objective_function) 1
                 (bump (Differentiable_Function._df_counter objective_function) 1
                    (counters st2)))
              (cerr st2 ++ [(1%N, value_at objective_function x,
                             norm_2 (gradient_at objective_function x))]))) /\
  (forall (T : Type) (ST : Scalar T) (f_obj : Differentiable_Function.t T T T)
          (x : T) (epsilon : float) (max_iter : N) (fuel : nat) (st : State T),
     (1 <= max_iter)%N ->
     (s_abs (Newton_step_spec f_obj x).1 <? s_of_double epsilon)%sc = true ->
     Newton (S fuel) f_obj x epsilon max_iter st =
       Ret (true, (x + (Newton_step_spec f_obj x).1)%sc)
           (mkState (bump (Differentiable_Function._df_counter f_obj) 1
                       (bump (Differentiable_Function._f_counter f_obj) 1 (counters st)))
                    (cerr st ++ [(1%N, (x + (Newton_step_spec f_obj x).1)%sc,
                                  (Newton_step_spec f_obj x).2)]))) /\
  (forall (T : Type) (ST : Scalar T) (SM : SignedMul T) (f_obj : Function.t T T)
          (x : T) (epsilon : float) (max_iter : N) (fuel : nat) (st : State T),
     (1 <= max_iter)%N ->
     (s_abs (Steffensen_step_spec f_obj x).1 <? s_of_double epsilon)%sc = true ->
     Steffensen (S fuel) f_obj x epsilon max_iter st =
       Ret (true, (x + (Steffensen_step_spec f_obj x).1)%sc)
           (mkState (bump (Function._f_counter f_obj) 2 (counters st))
                    (cerr st ++ [(1%N, (x + (Steffensen_step_spec f_obj x).1)%sc,
                                  (Steffensen_step_spec f_obj x).2)]))).
Proof.
  split; [|split].
  - intros T ST configuration objective_function x0 x fuel fuel' st st2 Hfirst.
    destruct (Adam_optimize fuel configuration objective_function x0 st)
      as [[b x'] st'| |] eqn:Hrun; try done.
    injection Hfirst as -> ->.
    destruct (Adam_converged_result _ _ _ _ _ _ _ Hrun) as [Hc Hconv].
    by apply Adam_rerun.
  - intros. by apply Newton_first_iteration.
  - intros. by apply Steffensen_first_iteration.
Qed.

(** ** The programs of the repository and the properties at work *)

(** The output of the root-finding program: Newton converges in five
    iterations with five evaluations of the value and of the derivative;
    Steffensen in seven iterations with fourteen evaluations of the value
    and none of the derivative. *)
Lemma main_root_finders_output :
  returned (main_root_finders (mkState [] [])) =
  Some ((true, 1.4142135623730951%float, 5, 5),
        (true, 1.4142135623730949%float, 14, 0)).
Proof. vm_compute. reflexivity. Qed.

(** The output of the Adam program: convergence at the index 97, with 97
    evaluations of the gradient and 11 of the value. *)
Lemma main_Adam_output :
  returned (main_Adam (mkState [] [])) =
  Some (true, [1.0047412848890951%float; 1.0095774778582416%float], 11, 97).
Proof. vm_compute. reflexivity. Qed.

Lemma Newton_state_machine_witness :
  exists b x' st',
    Newton 21 (square_root 2%float) 2%float default_epsilon 20 (mkState [] []) =
    Ret (b, x') st'.
Proof.
  destruct (Newton_state_machine (square_root 2%float) 2%float default_epsilon 20 21
              (mkState [] [])) as [Hrun _].
  - vm_compute. reflexivity.
  - cbn. lia.
  - eexists _, _, _. exact Hrun.
Defined.

Lemma Steffensen_state_machine_witness :
  exists b x' st',
    Steffensen 21 (Differentiable_Function.as_function (square_root 2%float))
      2%float default_epsilon 20 (mkState [] []) = Ret (b, x') st'.
Proof.
  destruct (Steffensen_state_machine
              (Differentiable_Function.as_function (square_root 2%float))
              2%float default_epsilon 20 21 (mkState [] []))
    as (st' & Hrun & _).
  - vm_compute. reflexivity.
  - cbn. lia.
  - eexists _, _, _. exact Hrun.
Defined.

Lemma Adam_update_steps_bounded_witness :
  exists k' s' st',
    Adam_loop 100 example_configuration example_quadratic [1%float] (mkState [] []) =
      Ret (k', s') st' /\
    (k' - 1 <= 100 - 1)%N.
Proof.
  destruct (Adam_update_steps_bounded example_configuration example_quadratic
              [1%float] 100 (mkState [] []))
    as [(k' & s' & st' & Hloop & _ & _ & Hsteps & _) _].
  - vm_compute. reflexivity.
  - cbn. lia.
  - exists k', s', st'. split; [exact Hloop|exact Hsteps].
Defined.

Lemma example_R_not_converged (x : vector R) :
  Adam_converged_at example_configuration_R example_quadratic_R x = false.
Proof.
  unfold Adam_converged_at, norm_2.
  cbn [s_ltb real absolute_epsilon example_configuration_R s_sqrt].
  destruct (Rlt_dec _ _) as [Hlt|]; [|done].
  exfalso. eapply Rlt_not_le; [exact Hlt|apply sqrt_pos].
Defined.


Lemma rerun_from_converged_iterate_witness :
  Adam_optimize 1 example_configuration example_quadratic
    [0.028595487315939416%float] (mkState [] []) =
  Ret (true, [0.028595487315939416%float])
      (mkState
         (bump (Differentiable_Function._f_counter example_quadratic) 1
            (bump (Differentiable_Function._df_counter example_quadratic) 1 []))
         ([] ++ [(1%N, value_at example_quadratic [0.028595487315939416%float],
                  norm_2 (gradient_at example_quadratic [0.028595487315939416%float]))])) /\
  Newton 1 (square_root 2%float) 1.4142135623730951%float default_epsilon 20
    (mkState [] []) =
  Ret (true, (1.4142135623730951%float
              + (Newton_step_spec (square_root 2%float) 1.4142135623730951%float).1)%sc)
      (mkState (bump None 1 (bump None 1 []))
         ([] ++ [(1%N,
                  (1.4142135623730951%float
                   + (Newton_step_spec (square_root 2%float) 1.4142135623730951%float).1)%sc,
                  (Newton_step_spec (square_root 2%float) 1.4142135623730951%float).2)])) /\
  returned
    (Steffensen 1 (Differentiable_Function.as_function (square_root 2%float))
       1.4142135623730949%float default_epsilon 20 (mkState [] [])) =
  Some (true,
        (1.4142135623730949%float
         + (Steffensen_step_spec
              (Differentiable_Function.as_function (square_root 2%float))
              1.4142135623730949%float).1)%sc).
Proof.
  destruct rerun_from_converged_iterate as (HAdam & HNewton & HSteffensen).
  split; [|split].
  - apply (HAdam float double example_configuration example_quadratic
             [1%float] [0.028595487315939416%float] 100%nat 0%nat
             (mkState [] []) (mkState [] [])).
    vm_compute. reflexivity.
  - apply (HNewton float double (square_root 2%float) 1.4142135623730951%float
             default_epsilon 20 0%nat (mkState [] [])).
    + vm_compute. discriminate.
    + vm_compute. reflexivity.
  - rewrite (HSteffensen float double double_SignedMul
               (Differentiable_Function.as_function (square_root 2%float))
               1.4142135623730949%float default_epsilon 20 0%nat (mkState [] [])).
    + reflexivity.
    + vm_compute. discriminate.
    + vm_compute. reflexivity.
Defined.

(** * Further properties of the code *)

(** ** Counters of instances that do not share *)

Section Counter_Cells.
Context {T D C : Type}.
Implicit Types (st : State T) (es : list (Function.t D C * D)).

Lemma evaluations_through_cons p (e : Function.t D C * D) es :
  evaluations_through p (e :: es) =
  ((if decide (Function._f_counter e.1 = p) then 1 else 0)
   + evaluations_through p es)%nat.
Proof.
  unfold evaluations_through. rewrite filter_cons. by case_decide.
Qed.

Lemma run_evaluations_cells es st :
  exists st',
    run_evaluations es st = Ret tt st' /\
    cerr st' = cerr st /\
    length (counters st') = length (counters st) /\
    forall l,
      counters st' !! l =
      size_t_add (evaluations_through (Some l) es) <$> counters st !! l.
Proof.
  revert st. induction es as [|[F x] es IH]; intros st.
  - exists st. repeat split; try done. intros l. cbn.
    by destruct (counters st !! l).
  - destruct (IH (mkState (bump (Function._f_counter F) 1 (counters st)) (cerr st)))
      as (st' & Hrun & Hcerr & Hlen & Hcells).
    exists st'. split.
    { cbn [run_evaluations]. erewrite bind_Ret by apply Function_f_spec. exact Hrun. }
    split; [done|]. split; [by rewrite Hlen; cbn; rewrite length_bump|].
    intros l. rewrite Hcells, evaluations_through_cons. cbn [counters fst].
    case_decide as Hp.
    + rewrite Hp, lookup_bump_eq. destruct (counters st !! l); [|done].
      cbn [fmap option_fmap option_map]. rewrite size_t_add_add.
      do 2 f_equal. lia.
    + by rewrite lookup_bump_ne.
Qed.

(** X1. A counter cell advances by the number of the evaluations made
    through the instances that point to it, modulo [2^64], whatever is
    evaluated through other instances in between; the output is not
    touched and no cell is added or removed. *)
Theorem counter_cells_are_independent es st (l : loc) (c : N) :
  counters st !! l = Some c ->
  (c < size_t_modulus)%N ->
  exists st',
    run_evaluations es st = Ret tt st' /\
    counters st' !! l =
      Some ((c + N.of_nat (evaluations_through (Some l) es)) mod size_t_modulus)%N /\
    (evaluations_through (Some l) es = 0%nat -> counters st' !! l = Some c) /\
    cerr st' = cerr st /\
    length (counters st') = length (counters st).
Proof.
  intros Hl Hc. destruct (run_evaluations_cells es st)
    as (st' & Hrun & Hcerr & Hlen & Hcells).
  exists st'. split; [done|]. rewrite Hcells, Hl. cbn.
  split; [by rewrite size_t_add_mod|]. split; [by intros ->|done].
Qed.
End Counter_Cells.

Lemma counter_cells_are_independent_witness :
  exists st',
    run_evaluations
      [(Function.mk (Function.mkInterface N.succ) (Some 0%nat), 3);
       (Function.mk (Function.mkInterface N.succ) (Some 1%nat), 4);
       (Function.mk (Function.mkInterface N.pred) (Some 0%nat), 5);
       (Function.mk (Function.mkInterface N.pred) None, 6)]
      (mkState [7; 0] ([] : list (line unit))) = Ret tt st' /\
    counters st' !! 0%nat = Some ((7 + N.of_nat 2) mod size_t_modulus).
Proof.
  destruct (counter_cells_are_independent (T:=unit)
              [(Function.mk (Function.mkInterface N.succ) (Some 0%nat), 3);
               (Function.mk (Function.mkInterface N.succ) (Some 1%nat), 4);
               (Function.mk (Function.mkInterface N.pred) (Some 0%nat), 5);
               (Function.mk (Function.mkInterface N.pred) None, 6)]
              (mkState [7; 0] []) 0%nat 7)
    as (st' & Hrun & Hcell & _).
  - reflexivity.
  - vm_compute. reflexivity.
  - exists st'. split; [exact Hrun|exact Hcell].
Defined.

(** ** The validators and the configuration *)

Section Validators.
Context {T : Type} `{Scalar T}.
Local Open Scope scalar_scope.

Lemma optional_argument_comm (c : Adam_Configuration T) (a b : user_arg T) :
  kind_of a <> kind_of b ->
  optional_argument (optional_argument c a) b =
  optional_argument (optional_argument c b) a.
Proof. by destruct a, b. Qed.

Lemma foldl_optional_argument_perm (args args' : list (user_arg T))
    (c : Adam_Configuration T) :
  args ≡ₚ args' -> NoDup (kind_of <$> args) ->
  foldl optional_argument c args = foldl optional_argument c args'.
Proof.
  intros Hperm. revert c.
  induction Hperm as [|a l l' _ IH|a b l|l1 l2 l3 H12 IH12 H23 IH23]; intros c Hnd.
  - done.
  - cbn. apply IH. by apply NoDup_cons in Hnd as [_ ?].
  - cbn. rewrite optional_argument_comm; [done|].
    cbn in Hnd. apply NoDup_cons in Hnd as [Hnotin _].
    intros Heq. apply Hnotin. rewrite Heq. apply list_elem_of_here.
  - rewrite IH12 by done. apply IH23.
    assert (kind_of <$> l1 ≡ₚ kind_of <$> l2) as Hp by (by apply fmap_Permutation).
    by rewrite <- Hp.
Qed.

Lemma foldl_optional_argument_fields (args : list (user_arg T))
    (c : Adam_Configuration T) :
  let c' := foldl optional_argument c args in
  internal_epsilon c' = internal_epsilon c /\
  (kind_alpha_schedule ∉ kind_of <$> args -> alpha_schedule c' = alpha_schedule c) /\
  (kind_beta_1 ∉ kind_of <$> args -> beta_1 c' = beta_1 c) /\
  (kind_beta_2 ∉ kind_of <$> args -> beta_2 c' = beta_2 c) /\
  (kind_maximimum_iterations ∉ kind_of <$> args ->
   maximimum_iterations c' = maximimum_iterations c) /\
  (kind_absolute_epsilon ∉ kind_of <$> args ->
   absolute_epsilon c' = absolute_epsilon c) /\
  (kind_verbose ∉ kind_of <$> args -> verbose c' = verbose c).
Proof.
  revert c. induction args as [|a args IH]; intros c; [done|].
  cbn [foldl]. specialize (IH (optional_argument c a)). cbv zeta in IH.
  destruct IH as (H0 & H1 & H2 & H3 & H4 & H5 & H6). cbv zeta.
  rewrite fmap_cons.
  split; [rewrite H0; by destruct a|].
  repeat split; intros Hnotin; apply not_elem_of_cons in Hnotin as [Hne Hnotin];
    [rewrite H1|rewrite H2|rewrite H3|rewrite H4|rewrite H5|rewrite H6];
    try done; by destruct a.
Qed.

Lemma bind_Ret_inv {A B} (m : M T A) (k : A -> M T B) st r st' :
  (m ≫= k) st = Ret r st' ->
  exists a st1, m st = Ret a st1 /\ k a st1 = Ret r st'.
Proof.
  unfold_monad. destruct (m st) as [a st1| |]; [|done|done]. intros Hk.
  by exists a, st1.
Qed.

Lemma Named_Assert_Type_In_01_inv (v r : T) st st' :
  Named_Assert_Type Assert_In_01_Strict v st = Ret r st' -> r = v /\ st' = st.
Proof.
  unfold Named_Assert_Type. unfold_monad. rewrite Assert_In_01_Strict_spec.
  destruct (0 <? v); [|done]. destruct (v <? 1); [|done]. by intros [= <- <-].
Qed.

Lemma Named_Assert_Type_Positive_inv (v r : T) st st' :
  Named_Assert_Type Assert_Positive v st = Ret r st' -> r = v /\ st' = st.
Proof.
  unfold Named_Assert_Type. unfold_monad. rewrite Assert_Positive_spec.
  destruct (0 <? v); [|done]. by intros [= <- <-].
Qed.

Lemma Adam_Configuration_default_inv (c0 : Adam_Configuration T) st st0 :
  Adam_Configuration_default st = Ret c0 st0 ->
  st0 = st /\ internal_epsilon c0 = s_sqrt s_epsilon.
Proof.
  unfold Adam_Configuration_default. intros Hdef.
  apply bind_Ret_inv in Hdef as (a1 & st1 & H1 & Hdef). injection H1 as <- <-.
  apply bind_Ret_inv in Hdef as (a2 & st2 & H2 & Hdef). injection H2 as <- <-.
  apply bind_Ret_inv in Hdef as (a3 & st3 & H3 & Hdef).
  apply Named_Assert_Type_In_01_inv in H3 as [-> ->].
  apply bind_Ret_inv in Hdef as (a4 & st4 & H4 & Hdef).
  apply Named_Assert_Type_In_01_inv in H4 as [-> ->].
  apply bind_Ret_inv in Hdef as (a5 & st5 & H5 & Hdef).
  apply Named_Assert_Type_Positive_inv in H5 as [-> ->].
  apply bind_Ret_inv in Hdef as (a6 & st6 & H6 & Hdef). injection H6 as <- <-.
  apply bind_Ret_inv in Hdef as (a7 & st7 & H7 & Hdef).
  apply Named_Assert_Type_In_01_inv in H7 as [-> ->].
  by injection Hdef as <- <-.
Qed.

(** X2. The named arguments of [configure_Adam] may be given in any order:
    two argument lists with the same arguments, each parameter named at
    most once, give the same configuration (or the same failure of the
    default construction). *)
Theorem configure_Adam_order_irrelevant (args args' : list (user_arg T))
    (st : State T) :
  args ≡ₚ args' -> NoDup (kind_of <$> args) ->
  configure_Adam args st = configure_Adam args' st.
Proof.
  intros Hperm Hnd. unfold configure_Adam. unfold_monad.
  destruct (Adam_Configuration_default st) as [c st'| |]; [|done|done].
  by rewrite (foldl_optional_argument_perm args args' c Hperm Hnd).
Qed.

(** X3. Whatever arguments [configure_Adam] is given, the internal epsilon
    of the configuration is the default one, for which the function has no
    option; every parameter that is not named keeps its default, and the
    store and the output are as they were. *)
Theorem configure_Adam_keeps_defaults (args : list (user_arg T))
    (c : Adam_Configuration T) (st st' : State T) :
  configure_Adam args st = Ret c st' ->
  exists c0,
    Adam_Configuration_default st = Ret c0 st /\ st' = st /\
    internal_epsilon c = internal_epsilon c0 /\
    internal_epsilon c0 = s_sqrt s_epsilon /\
    (kind_alpha_schedule ∉ kind_of <$> args -> alpha_schedule c = alpha_schedule c0) /\
    (kind_beta_1 ∉ kind_of <$> args -> beta_1 c = beta_1 c0) /\
    (kind_beta_2 ∉ kind_of <$> args -> beta_2 c = beta_2 c0) /\
    (kind_maximimum_iterations ∉ kind_of <$> args ->
     maximimum_iterations c = maximimum_iterations c0) /\
    (kind_absolute_epsilon ∉ kind_of <$> args ->
     absolute_epsilon c = absolute_epsilon c0) /\
    (kind_verbose ∉ kind_of <$> args -> verbose c = verbose c0).
Proof.
  unfold configure_Adam. unfold_monad. intros Hrun.
  destruct (Adam_Configuration_default st) as [c0 st0| |] eqn:Hdef; [|done|done].
  injection Hrun as <- <-.
  assert (st0 = st /\ internal_epsilon c0 = s_sqrt s_epsilon) as [-> Hie].
  { by apply Adam_Configuration_default_inv in Hdef. }
  exists c0. split; [done|]. split; [done|].
  destruct (foldl_optional_argument_fields args c0) as (H0 & H1 & H2 & H3 & H4 & H5 & H6).
  by repeat split.
Qed.
End Validators.

Lemma configure_Adam_order_irrelevant_witness :
  configure_Adam (T:=float) [arg_beta_1 0.6%float; arg_verbose true] (mkState [] []) =
  configure_Adam (T:=float) [arg_verbose true; arg_beta_1 0.6%float] (mkState [] []).
Proof.
  apply configure_Adam_order_irrelevant.
  - apply perm_swap.
  - cbn. apply NoDup_cons. split; [|apply NoDup_singleton].
    by intros Hin%list_elem_of_singleton.
Defined.

Lemma configure_Adam_keeps_defaults_witness :
  exists c0,
    Adam_Configuration_default (T:=float) (mkState [] []) = Ret c0 (mkState [] []) /\
    internal_epsilon
      (mkAdam_Configuration 100 (Adam_alpha_constant_schedule default_alpha)
         0.6%float default_beta_2 default_absolute_epsilon true 0x1p-26%float) =
    internal_epsilon c0.
Proof.
  destruct (configure_Adam_keeps_defaults (T:=float)
              [arg_beta_1 0.6%float; arg_verbose true]
              (mkAdam_Configuration 100 (Adam_alpha_constant_schedule default_alpha)
                 0.6%float default_beta_2 default_absolute_epsilon true 0x1p-26%float)
              (mkState [] []) (mkState [] []))
    as (c0 & Hdef & _ & Hie & _).
  - vm_compute. reflexivity.
  - exists c0. split; [exact Hdef|exact Hie].
Defined.

(** X4. In [double] the default member initialisers pass their
    validators: [configure_Adam] never fails, and without arguments it
    gives 100 iterations, the constant schedule 0.01, the betas 0.9 and
    0.999, the absolute epsilon 1e-6, no verbosity and the internal epsilon
    [2^-26], the square root of the machine epsilon. *)
Theorem configure_Adam_double_defaults (args : list (user_arg float))
    (st : State float) :
  configure_Adam [] st =
    Ret (mkAdam_Configuration 100 (Adam_alpha_constant_schedule 0.01%float)
           0.9%float 0.999%float 1e-6%float false 0x1p-26%float) st /\
  configure_Adam args st =
    Ret (foldl optional_argument
           (mkAdam_Configuration 100 (Adam_alpha_constant_schedule 0.01%float)
              0.9%float 0.999%float 1e-6%float false 0x1p-26%float) args) st.
Proof. split; reflexivity. Qed.

(** X5. The validators leave the store and the output alone; a value that
    [Assert_In_01_Strict] accepts is accepted by [Assert_Positive]; a value
    that fails [t > 0] is reported with that assertion by both.  In
    [double], the NaN is rejected by both, and the infinity is accepted as a
    positive value and rejected as a value of the interval. *)
Theorem validators_agree :
  (forall (T : Type) (ST : Scalar T) (t : T) (st : State T),
     (Assert_Positive t st = Ret tt st \/ Assert_Positive t st = Abort "t > 0") /\
     (Assert_In_01_Strict t st = Ret tt st \/
      Assert_In_01_Strict t st = Abort "t > 0" \/
      Assert_In_01_Strict t st = Abort "t < 1") /\
     (Assert_In_01_Strict t st = Ret tt st -> Assert_Positive t st = Ret tt st) /\
     (Assert_Positive t st = Abort "t > 0" <->
      Assert_In_01_Strict t st = Abort "t > 0")) /\
  (forall st : State float,
     Assert_Positive nan st = Abort "t > 0" /\
     Assert_In_01_Strict nan st = Abort "t > 0" /\
     Assert_Positive infinity st = Ret tt st /\
     Assert_In_01_Strict infinity st = Abort "t < 1").
Proof.
  split; [|done].
  intros T ST t st. rewrite Assert_In_01_Strict_spec, Assert_Positive_spec.
  destruct (0 <? t)%sc, (t <? 1)%sc; repeat split; auto; try done.
Qed.

Lemma validators_agree_witness :
  Assert_Positive (T:=float) 0.5%float (mkState [] []) = Ret tt (mkState [] []).
Proof.
  destruct validators_agree as [Hgen _].
  destruct (Hgen float double 0.5%float (mkState [] [])) as (_ & _ & Himp & _).
  apply Himp. reflexivity.
Defined.

(** ** The norm of the gradient *)

Section Real_Norm.
Local Open Scope R_scope.

Lemma squared_norm_2_real_acc (v : vector R) (acc : R) :
  foldl (fun sum v_i => sum + Rabs v_i ^ 2) acc v =
  acc + foldl (fun sum v_i => sum + Rabs v_i ^ 2) 0 v.
Proof.
  revert acc. induction v as [|a v IH]; intros acc; cbn [foldl].
  - ring.
  - rewrite IH, (IH (0 + _)). ring.
Qed.

Lemma squared_norm_2_real_fold (v : vector R) :
  squared_norm_2 v = foldl (fun sum v_i => sum + Rabs v_i ^ 2) 0 v.
Proof. reflexivity. Qed.

Lemma squared_norm_2_real_cons (a : R) (v : vector R) :
  squared_norm_2 (a :: v) = a * a + squared_norm_2 v.
Proof.
  rewrite !squared_norm_2_real_fold. cbn [foldl].
  rewrite squared_norm_2_real_acc, pow2_abs. ring.
Qed.

Lemma squared_norm_2_real_nonneg (v : vector R) : 0 <= squared_norm_2 v.
Proof.
  induction v as [|a v IH].
  - cbn. lra.
  - rewrite squared_norm_2_real_cons. pose proof (Rle_0_sqr a) as Ha.
    unfold Rsqr in Ha. lra.
Qed.

Lemma squared_norm_2_real_zero (v : vector R) :
  squared_norm_2 v = 0 <-> Forall (fun a => a = 0) v.
Proof.
  induction v as [|a v IH].
  - split; [constructor|reflexivity].
  - rewrite squared_norm_2_real_cons. pose proof (Rle_0_sqr a) as Ha.
    unfold Rsqr in Ha. pose proof (squared_norm_2_real_nonneg v) as Hv.
    split.
    + intros Hsum. constructor.
      * apply Rsqr_0_uniq. unfold Rsqr. lra.
      * apply IH. lra.
    + intros Hall. apply Forall_cons in Hall as [-> Hall].
      apply IH in Hall. rewrite Hall. ring.
Qed.

Lemma squared_norm_2_real_bound (v : vector R) (a : R) :
  a ∈ v -> a * a <= squared_norm_2 v.
Proof.
  induction v as [|b v IH]; intros Hin; [by apply elem_of_nil in Hin|].
  rewrite squared_norm_2_real_cons. pose proof (Rle_0_sqr b) as Hb.
  unfold Rsqr in Hb. pose proof (squared_norm_2_real_nonneg v) as Hv.
  apply elem_of_cons in Hin as [->|Hin]; [lra|].
  specialize (IH Hin). lra.
Qed.

End Real_Norm.

Lemma squared_norm_2_double_zeros (v : vector float) :
  Forall (fun a => a = 0%float \/ a = (-0)%float) v ->
  squared_norm_2 v = 0%float.
Proof.
  unfold squared_norm_2. intros Hall.
  induction Hall as [|a v [->| ->] _ IH]; [reflexivity|exact IH|exact IH].
Qed.

(** X7. In [double], where the gradient that the objective stores is made
    of zeros (of either sign, or is empty), [Adam_optimize] with a positive
    absolute epsilon and a maximum of at least two iterations returns
    [true] from its first iteration and leaves [x_init] as it is. *)
Theorem Adam_stops_at_zero_gradient (configuration : Adam_Configuration float)
    (objective_function : Differentiable_Function.t (vector float) float (vector float))
    (x : vector float) (fuel : nat) (st : State float) :
  Forall (fun a => a = 0%float \/ a = (-0)%float) (gradient_at objective_function x) ->
  (0 <? absolute_epsilon configuration)%float = true ->
  (1 < maximimum_iterations configuration)%N ->
  exists st',
    Adam_optimize (S fuel) configuration objective_function x st = Ret (true, x) st' /\
    cerr st' = cerr st ++ [(1%N, value_at objective_function x, 0%float)].
Proof.
  intros Hzero Heps Hmax. eexists. split.
  - apply Adam_rerun; [by apply N.ltb_lt|].
    unfold Adam_converged_at, norm_2.
    rewrite (squared_norm_2_double_zeros _ Hzero). exact Heps.
  - cbn [cerr]. unfold norm_2.
    by rewrite (squared_norm_2_double_zeros _ Hzero).
Qed.

Lemma Adam_stops_at_zero_gradient_witness :
  exists st',
    Adam_optimize 1 example_configuration example_quadratic [] (mkState [] []) =
      Ret (true, []) st' /\
    cerr st' = [] ++ [(1%N, value_at example_quadratic [], 0%float)].
Proof.
  apply (Adam_stops_at_zero_gradient example_configuration example_quadratic
           [] 0 (mkState [] [])).
  - constructor.
  - reflexivity.
  - reflexivity.
Defined.

(** ** The run of Adam: evaluations, records, outcome *)

Section Adam_Run.
Context {T : Type} `{Scalar T}.
Local Open Scope scalar_scope.
Variable configuration : Adam_Configuration T.
Variable objective_function : Differentiable_Function.t (vector T) T (vector T).

Local Abbreviation cond := (fun k : N => (k <? maximimum_iterations configuration)%N).
Local Abbreviation body := (Adam_body configuration objective_function).
Local Abbreviation f_ptr := (Differentiable_Function._f_counter objective_function).
Local Abbreviation df_ptr := (Differentiable_Function._df_counter objective_function).

Lemma Adam_iteration_effect_going (k : N) (x : vector T) (st : State T) :
  Adam_converged_at configuration objective_function x = false ->
  Adam_iteration_effect configuration objective_function k x st =
  let here :=
    if verbose configuration && (k mod 10 =? 1)%N
    then [Adam_record objective_function k x] else [] in
  mkState (bump f_ptr (length here) (bump df_ptr 1 (counters st))) (cerr st ++ here).
Proof.
  intros Hconv. unfold Adam_iteration_effect. rewrite Hconv. cbn [orb]. cbv zeta.
  destruct (verbose configuration && (k mod 10 =? 1)%N); cbn [length].
  - done.
  - by rewrite bump_0, app_nil_r.
Qed.

Lemma Adam_iteration_effect_stopping (k : N) (x : vector T) (st : State T) :
  Adam_converged_at configuration objective_function x = true ->
  Adam_iteration_effect configuration objective_function k x st =
  mkState (bump f_ptr 1 (bump df_ptr 1 (counters st)))
          (cerr st ++ [Adam_record objective_function k x]).
Proof. intros Hconv. unfold Adam_iteration_effect. by rewrite Hconv. Qed.

(** The whole of a run of the loop from the index [k]: [j] iterations go
    on to their update, then the loop ends by the test ([hc]) or by the
    bound. *)
Lemma for_loop_Adam_full (n fuel : nat) (k : N) (x m v : vector T) (st : State T) :
  N.to_nat (maximimum_iterations configuration - k) = n ->
  (n < fuel)%nat ->
  (maximimum_iterations configuration < size_t_modulus)%N ->
  exists (j : nat) (hc : bool) (st' : State T),
    let r := Adam_updates configuration objective_function j k x m v in
    let progress := Adam_progress configuration objective_function j k x m v in
    let final :=
      if hc then [Adam_record objective_function (k + N.of_nat j) r.1.1] else [] in
    for_loop cond body fuel k (mkAdam_locals x m v false) st =
      Ret ((k + N.of_nat j)%N, mkAdam_locals r.1.1 r.1.2 r.2 hc) st' /\
    (j <= n)%nat /\
    (hc = false -> j = n) /\
    (hc = true -> (j < n)%nat /\
       Adam_converged_at configuration objective_function r.1.1 = true) /\
    (forall i, (i < j)%nat ->
       Adam_converged_at configuration objective_function
         (Adam_updates configuration objective_function i k x m v).1.1 = false) /\
    counters st' =
      bump f_ptr (length progress + length final)
        (bump df_ptr (j + length final) (counters st)) /\
    cerr st' = cerr st ++ progress ++ final.
Proof.
  revert fuel k x m v st. induction n as [|n IH]; intros fuel k x m v st Hn Hfuel Hmax.
  - destruct fuel as [|fuel]; [lia|].
    exists 0%nat, false, st. cbv zeta.
    cbn [Adam_updates Adam_progress fst snd length Nat.add].
    rewrite for_loop_exit by (apply N.ltb_ge; lia).
    rewrite N.add_0_r, !bump_0, !app_nil_r.
    repeat split; try done; lia.
  - destruct fuel as [|fuel]; [lia|].
    assert ((k <? maximimum_iterations configuration)%N = true) as Hc
      by (apply N.ltb_lt; lia).
    pose proof (Adam_body_spec configuration objective_function k
                  (mkAdam_locals x m v false) st) as Hb.
    cbv zeta in Hb. cbn [x_init m_k v_k] in Hb.
    destruct (Adam_converged_at configuration objective_function x) eqn:Hconv.
    + exists 0%nat, true, (Adam_iteration_effect configuration objective_function k x st).
      cbv zeta. cbn [Adam_updates Adam_progress fst snd length Nat.add].
      rewrite N.add_0_r.
      erewrite for_loop_break; [|done|exact Hb].
      rewrite Adam_iteration_effect_stopping by done. cbn [counters cerr].
      repeat split; try done; lia.
    + destruct (Adam_update configuration k (gradient_at objective_function x) x m v)
        as [[x1 m1] v1] eqn:Hupd.
      destruct (IH fuel (k + 1)%N x1 m1 v1
                  (Adam_iteration_effect configuration objective_function k x st))
        as (j & hc & st' & Hrun & Hle & Hfalse & Htrue & Hbefore & Hcnt & Hcerr);
        [lia|lia|done|].
      cbv zeta in Hrun, Htrue, Hcnt, Hcerr.
      exists (S j), hc, st'. cbv zeta. cbn [Adam_updates Adam_progress].
      rewrite Hupd.
      replace (k + N.of_nat (S j))%N with (k + 1 + N.of_nat j)%N by lia.
      split.
      { erewrite for_loop_continue; [|done|exact Hb].
        by rewrite size_t_incr_small by lia. }
      split; [lia|]. split; [intros Hhc; rewrite (Hfalse Hhc); done|].
      split; [intros Hhc; destruct (Htrue Hhc); split; [lia|done]|].
      split.
      { intros [|i] Hi; [done|]. cbn [Adam_updates]. rewrite Hupd.
        apply Hbefore. lia. }
      rewrite Adam_iteration_effect_going in Hcnt, Hcerr by done.
      cbv zeta in Hcnt, Hcerr. cbn [counters cerr] in Hcnt, Hcerr.
      set (here := if verbose configuration && (k mod 10 =? 1)%N
                   then [Adam_record objective_function k x] else []) in *.
      split.
      * rewrite Hcnt, length_app.
        rewrite (bump_comm df_ptr f_ptr _ (length here)), !bump_bump.
        f_equal; [lia|]. f_equal. lia.
      * rewrite Hcerr. by rewrite <- !app_assoc.
Qed.
Lemma Adam_progress_quiet (j : nat) (k : N) (x m v : vector T) :
  verbose configuration = false ->
  Adam_progress configuration objective_function j k x m v = [].
Proof.
  intros Hv. revert k x m v. induction j as [|j IH]; intros k x m v; [done|].
  cbn [Adam_progress]. rewrite Hv. cbn [andb].
  destruct (Adam_update configuration k _ x m v) as [[x' m'] v']. apply IH.
Qed.

Lemma Adam_progress_indices (j : nat) (k : N) (x m v : vector T) :
  Forall (fun l : line T => (k <= l.1.1 < k + N.of_nat j)%N /\ (l.1.1 mod 10 = 1)%N)
         (Adam_progress configuration objective_function j k x m v).
Proof.
  revert k x m v. induction j as [|j IH]; intros k x m v; [constructor|].
  cbn [Adam_progress].
  destruct (Adam_update configuration k _ x m v) as [[x' m'] v'].
  apply Forall_app. split.
  - destruct (verbose configuration && (k mod 10 =? 1)%N) eqn:Hhere; [|constructor].
    apply andb_true_iff in Hhere as [_ Hmod%N.eqb_eq].
    constructor; [|constructor]. cbn. split; [lia|done].
  - eapply Forall_impl; [apply IH|]. cbn. intros l [Hrange Hmod]. split; [lia|done].
Qed.


(** X9. The outcome of [Adam_optimize]: it returns [true] exactly when
    the test (the norm of the gradient below the absolute epsilon) is met
    at one of the iterates reached by fewer than [max_iterations - 1]
    update steps, and then [x_init] is the first such iterate; otherwise
    it returns [false] with [x_init] after [max_iterations - 1] update
    steps, an iterate at which the test has not been made. *)
Theorem Adam_outcome (x : vector T) (fuel : nat) (st : State T) :
  (maximimum_iterations configuration < size_t_modulus)%N ->
  (N.to_nat (maximimum_iterations configuration - 1) < fuel)%nat ->
  let n := N.to_nat (maximimum_iterations configuration - 1) in
  let iterate i :=
    (Adam_updates configuration objective_function i 1 x
       (replicate (length x) 0) (replicate (length x) 0)).1.1 in
  exists (j : nat) (hc : bool) (st' : State T),
    Adam_optimize fuel configuration objective_function x st = Ret (hc, iterate j) st' /\
    (hc = true <->
     exists i, (i < n)%nat /\
       Adam_converged_at configuration objective_function (iterate i) = true) /\
    (hc = true ->
     (j < n)%nat /\ Adam_converged_at configuration objective_function (iterate j) = true) /\
    (hc = false -> j = n) /\
    (forall i, (i < j)%nat ->
       Adam_converged_at configuration objective_function (iterate i) = false).
Proof.
  intros Hmax Hfuel n iterate.
  destruct (for_loop_Adam_full n fuel 1%N x
              (replicate (length x) 0) (replicate (length x) 0) st)
    as (j & hc & st' & Hrun & Hle & Hfalse & Htrue & Hbefore & _); [done|done|done|].
  cbv zeta in Hrun, Htrue.
  exists j, hc, st'. split.
  { unfold Adam_optimize, Adam_loop. by erewrite bind_Ret by exact Hrun. }
  split; [|split; [exact Htrue|split; [exact Hfalse|exact Hbefore]]].
  split.
  - intros Hhc. exists j. by apply Htrue.
  - intros (i & Hi & Hconv). destruct hc; [done|].
    rewrite (Hfalse eq_refl) in Hbefore. unfold iterate in Hconv.
    rewrite (Hbefore i Hi) in Hconv. done.
Qed.

Lemma length_Adam_updates (j : nat) (k : N) (x m v : vector T) (d : nat) :
  (forall y, length y = d -> length (gradient_at objective_function y) = d) ->
  length x = d -> length m = d -> length v = d ->
  let r := Adam_updates configuration objective_function j k x m v in
  length r.1.1 = d /\ length r.1.2 = d /\ length r.2 = d.
Proof.
  intros Hgrad. revert k x m v. induction j as [|j IH]; intros k x m v Hx Hm Hv.
  - done.
  - cbv zeta. cbn [Adam_updates].
    pose proof (length_Adam_update configuration k
                  (gradient_at objective_function x) x m v d
                  (Hgrad x Hx) Hx Hm Hv) as Hlen.
    cbv zeta in Hlen.
    destruct (Adam_update configuration k _ x m v) as [[x' m'] v'].
    cbn [fst snd] in Hlen. destruct Hlen as (Hx' & Hm' & Hv').
    by apply IH.
Qed.

(** X10. [Adam_optimize] keeps the dimension: when the gradient that the
    objective stores has the size of its argument, the vector left in
    [x_init] has the size of the vector the call started from, and so have
    the two moments at the exit of the loop. *)
Theorem Adam_keeps_dimension (x : vector T) (fuel : nat) (st : State T) :
  (forall y, length y = length x ->
     length (gradient_at objective_function y) = length x) ->
  (maximimum_iterations configuration < size_t_modulus)%N ->
  (N.to_nat (maximimum_iterations configuration - 1) < fuel)%nat ->
  exists k' s' st',
    Adam_loop fuel configuration objective_function x st = Ret (k', s') st' /\
    Adam_optimize fuel configuration objective_function x st =
      Ret (has_converged s', x_init s') st' /\
    length (x_init s') = length x /\
    length (m_k s') = length x /\
    length (v_k s') = length x.
Proof.
  intros Hgrad Hmax Hfuel.
  destruct (for_loop_Adam_full
              (N.to_nat (maximimum_iterations configuration - 1)) fuel 1%N x
              (replicate (length x) 0) (replicate (length x) 0) st)
    as (j & hc & st' & Hrun & _); [done|done|done|].
  cbv zeta in Hrun. eexists _, _, st'. split; [exact Hrun|].
  split. { unfold Adam_optimize, Adam_loop. by erewrite bind_Ret by exact Hrun. }
  cbn [x_init m_k v_k].
  apply (length_Adam_updates j 1%N x _ _ (length x) Hgrad);
    [done|apply length_replicate|apply length_replicate].
Qed.
End Adam_Run.

Section Adam_First_Step.
Local Open Scope R_scope.

End Adam_First_Step.

(** ** The runs of the root finders *)

Section Root_Runs.
Context {T : Type} `{Scalar T}.
Local Open Scope scalar_scope.

Lemma Newton_run (f_obj : Differentiable_Function.t T T T)
    (x : T) (epsilon : float) (max_iter : N) (fuel : nat) (st : State T) :
  (max_iter < size_t_modulus - 1)%N ->
  (N.to_nat max_iter < fuel)%nat ->
  let r := root_iteration_spec (Newton_step_spec f_obj) (s_of_double epsilon)
             (N.to_nat max_iter) 1 x in
  Newton fuel f_obj x epsilon max_iter st =
  Ret (r.1.1, r.1.2)
      (mkState (bump (Differentiable_Function._df_counter f_obj) (length r.2)
                  (bump (Differentiable_Function._f_counter f_obj) (length r.2)
                     (counters st)))
               (cerr st ++ r.2)).
Proof.
  intros Hmax Hfuel r.
  destruct (root_loop_refines (Newton_step_spec f_obj) (s_of_double epsilon) max_iter
              (Differentiable_Function._f_counter f_obj)
              (Differentiable_Function._df_counter f_obj)
              (Newton_body f_obj epsilon)
              (fun iter x hc st => Newton_body_spec f_obj epsilon iter x hc st)
              (N.to_nat max_iter) fuel 1%N x st) as [i' Hloop]; [done|lia|lia|].
  unfold Newton. by erewrite bind_Ret by exact Hloop.
Qed.

Lemma Steffensen_run `{!SignedMul T} (f_obj : Function.t T T)
    (x : T) (epsilon : float) (max_iter : N) (fuel : nat) (st : State T) :
  (max_iter < size_t_modulus - 1)%N ->
  (N.to_nat max_iter < fuel)%nat ->
  let r := root_iteration_spec (Steffensen_step_spec f_obj) (s_of_double epsilon)
             (N.to_nat max_iter) 1 x in
  Steffensen fuel f_obj x epsilon max_iter st =
  Ret (r.1.1, r.1.2)
      (mkState (bump (Function._f_counter f_obj) (length r.2 + length r.2) (counters st))
               (cerr st ++ r.2)).
Proof.
  intros Hmax Hfuel r.
  destruct (root_loop_refines (Steffensen_step_spec f_obj) (s_of_double epsilon) max_iter
              (Function._f_counter f_obj) (Function._f_counter f_obj)
              (Steffensen_body f_obj epsilon)
              (fun iter x hc st => Steffensen_body_spec f_obj epsilon iter x hc st)
              (N.to_nat max_iter) fuel 1%N x st) as [i' Hloop]; [done|lia|lia|].
  unfold Steffensen. erewrite bind_Ret by exact Hloop. by rewrite bump_bump.
Qed.

Lemma iterate_spec_succ (step : T -> T * T) (k : nat) (x : T) :
  iterate_spec step (S k) x =
  iterate_spec step k x + (step (iterate_spec step k x)).1.
Proof.
  revert x. induction k as [|k IH]; intros x; [done|].
  change (iterate_spec step (S (S k)) x)
    with (iterate_spec step (S k) (x + (step x).1)).
  by rewrite IH.
Qed.

(** X12. The records that the root finders write: one for every
    iteration, numbered from 1 in the order of the iterations, each with
    the iterate after the step and the function value before it; as many
    records as combined evaluations for Newton, half as many as value
    evaluations for Steffensen. *)
Theorem root_finder_reports `{!SignedMul T} (f_obj : Differentiable_Function.t T T T)
    (x : T) (epsilon : float) (max_iter : N) (fuel : nat) (st : State T) :
  (max_iter < size_t_modulus - 1)%N ->
  (N.to_nat max_iter < fuel)%nat ->
  (exists b x' st' lines,
     Newton fuel f_obj x epsilon max_iter st = Ret (b, x') st' /\
     cerr st' = cerr st ++ lines /\
     (length lines <= N.to_nat max_iter)%nat /\
     counters st' =
       bump (Differentiable_Function._df_counter f_obj) (length lines)
         (bump (Differentiable_Function._f_counter f_obj) (length lines) (counters st)) /\
     forall k, (k < length lines)%nat ->
       lines !! k =
       Some ((1 + N.of_nat k)%N,
             iterate_spec (Newton_step_spec f_obj) (S k) x,
             (Differentiable_Function.Interface_f_df
                (Differentiable_Function._pimpl f_obj)
                (iterate_spec (Newton_step_spec f_obj) k x)).1)) /\
  (exists b x' st' lines,
     Steffensen fuel (Differentiable_Function.as_function f_obj) x epsilon max_iter st =
       Ret (b, x') st' /\
     cerr st' = cerr st ++ lines /\
     (length lines <= N.to_nat max_iter)%nat /\
     counters st' =
       bump (Differentiable_Function._f_counter f_obj) (2 * length lines) (counters st) /\
     forall k, (k < length lines)%nat ->
       lines !! k =
       Some ((1 + N.of_nat k)%N,
             iterate_spec
               (Steffensen_step_spec (Differentiable_Function.as_function f_obj)) (S k) x,
             Function.Interface_f
               (Differentiable_Function.base (Differentiable_Function._pimpl f_obj))
               (iterate_spec
                  (Steffensen_step_spec (Differentiable_Function.as_function f_obj)) k x))).
Proof.
  intros Hmax Hfuel. split.
  - eexists _, _, _, _. split; [by apply Newton_run|]. cbn [cerr counters].
    split; [done|]. split; [apply root_iteration_spec_length|]. split; [done|].
    intros k Hk. rewrite root_iteration_spec_reports by done.
    do 2 f_equal. unfold Newton_step_spec.
    by destruct (Differentiable_Function.Interface_f_df _ _).
  - eexists _, _, _, _. split; [by apply Steffensen_run|]. cbn [cerr counters].
    split; [done|]. split; [apply root_iteration_spec_length|].
    split; [do 2 f_equal; lia|].
    intros k Hk. by rewrite root_iteration_spec_reports by done.
Qed.

(** X13. With no iteration allowed, the solvers do nothing: for
    [max_iter = 0] Newton and Steffensen, and for a maximum of zero or one
    iteration Adam, return [false] and leave the iterate, the counters and
    the output as they were. *)
Theorem no_iteration_allowed (f_obj : Differentiable_Function.t T T T)
    (configuration : Adam_Configuration T)
    (objective_function : Differentiable_Function.t (vector T) T (vector T))
    (x : T) (x_vec : vector T) (epsilon : float) (fuel : nat) (st : State T) :
  Newton (S fuel) f_obj x epsilon 0 st = Ret (false, x) st /\
  Steffensen (S fuel) (Differentiable_Function.as_function f_obj) x epsilon 0 st =
    Ret (false, x) st /\
  ((maximimum_iterations configuration <= 1)%N ->
   Adam_optimize (S fuel) configuration objective_function x_vec st =
     Ret (false, x_vec) st).
Proof.
  split; [|split].
  - unfold Newton. by erewrite bind_Ret by (by apply for_loop_exit).
  - unfold Steffensen. by erewrite bind_Ret by (by apply for_loop_exit).
  - intros Hmax. unfold Adam_optimize, Adam_loop.
    by erewrite bind_Ret by (apply for_loop_exit; apply N.ltb_ge; lia).
Qed.
End Root_Runs.

(** ** The two objectives and Newton over the real numbers *)

Section Real_Objectives.
Local Open Scope R_scope.

Lemma root_iteration_spec_nonempty (step : R -> R * R) (epsilon : R)
    (n : nat) (iter : N) (x : R) :
  (1 <= n)%nat -> (1 <= length (root_iteration_spec step epsilon n iter x).2)%nat.
Proof.
  destruct n as [|n]; [lia|]. intros _. cbn [root_iteration_spec].
  destruct (step x) as [delta f]. destruct (s_ltb (s_abs delta) epsilon).
  - cbn. lia.
  - destruct (root_iteration_spec step epsilon n (iter + 1) (s_add x delta))
      as [[b xf] ls]. cbn. lia.
Qed.

Lemma Newton_square_root_step (c x : R) :
  Newton_step_spec (square_root c) x = (- (x * x - c) / (2 * x), x * x - c).
Proof. reflexivity. Qed.

Lemma Newton_square_root_next (c x : R) :
  0 <= c -> 0 < x ->
  let delta := (Newton_step_spec (square_root c) x).1 in
  0 < x + delta /\ (x + delta) * (x + delta) - c = delta * delta.
Proof.
  intros Hc Hx. rewrite Newton_square_root_step. cbn [fst]. split.
  - replace (x + - (x * x - c) / (2 * x)) with ((x * x + c) / (2 * x)) by (field; lra).
    apply Rdiv_lt_0_compat; nra.
  - field. lra.
Qed.

Lemma Newton_square_root_positive (c : R) (k : nat) (x : R) :
  0 <= c -> 0 < x -> 0 < iterate_spec (Newton_step_spec (square_root c)) k x.
Proof.
  intros Hc. revert x. induction k as [|k IH]; intros x Hx; [done|].
  cbn [iterate_spec]. apply IH. by apply Newton_square_root_next.
Qed.


Lemma square_root_derivable (c x : R) :
  derivable_pt_lim (fun y => y * y - c) x (2 * x).
Proof.
  replace (2 * x) with (1 * id x + id x * 1 - 0) by (unfold id; ring).
  apply (derivable_pt_lim_minus (id * id)%F (fct_cte c)).
  - apply derivable_pt_lim_mult; apply derivable_pt_lim_id.
  - apply derivable_pt_lim_const.
Qed.

(** X15. [square_root] over the real numbers: what it stores in the slot
    [df] is the derivative of what it stores in the slot [f]; the combined
    evaluation gives the pair of the two single ones; and the function is
    zero exactly at the numbers whose square is [c]. *)
Theorem square_root_is_differentiable (c x : R) :
  let f := Function.Interface_f
             (Differentiable_Function.base
                (Differentiable_Function._pimpl (square_root c))) in
  let df := Differentiable_Function.Interface_df
              (Differentiable_Function._pimpl (square_root c)) in
  derivable_pt_lim f x (df x) /\
  Differentiable_Function.Interface_f_df
    (Differentiable_Function._pimpl (square_root c)) x = (f x, df x) /\
  (f x = 0 <-> x * x = c).
Proof.
  cbv zeta. split; [exact (square_root_derivable c x)|]. split; [reflexivity|].
  cbn. lra.
Qed.

Lemma Rosenbrock_derivable_0 (c x0 x1 : R) :
  derivable_pt_lim
    (fun t => (1 - t) * (1 - t) + c * (x1 - t * t) * (x1 - t * t)) x0
    (2 * (Ropp 1 + x0 + 2 * c * x0 * x0 * x0 - 2 * c * x0 * x1)).
Proof.
  set (u := (fct_cte 1 - id)%F).
  set (w := (fct_cte x1 - id * id)%F).
  assert (derivable_pt_lim u x0 (0 - 1)) as Hu.
  { apply derivable_pt_lim_minus;
      [apply derivable_pt_lim_const|apply derivable_pt_lim_id]. }
  assert (derivable_pt_lim w x0 (0 - (1 * id x0 + id x0 * 1))) as Hw.
  { apply derivable_pt_lim_minus; [apply derivable_pt_lim_const|].
    apply derivable_pt_lim_mult; apply derivable_pt_lim_id. }
  assert (derivable_pt_lim (fct_cte c * w)%F x0
            (0 * w x0 + fct_cte c x0 * (0 - (1 * id x0 + id x0 * 1)))) as Hcw.
  { apply derivable_pt_lim_mult; [apply derivable_pt_lim_const|exact Hw]. }
  pose proof (derivable_pt_lim_plus _ _ _ _ _
                (derivable_pt_lim_mult _ _ _ _ _ Hu Hu)
                (derivable_pt_lim_mult _ _ _ _ _ Hcw Hw)) as Hsum.
  replace (2 * (Ropp 1 + x0 + 2 * c * x0 * x0 * x0 - 2 * c * x0 * x1)) with
    ((0 - 1) * u x0 + u x0 * (0 - 1) +
     ((0 * w x0 + fct_cte c x0 * (0 - (1 * id x0 + id x0 * 1))) * w x0 +
      (fct_cte c * w)%F x0 * (0 - (1 * id x0 + id x0 * 1)))).
  - exact Hsum.
  - unfold u, w, fct_cte, id, minus_fct, mult_fct. ring.
Qed.

Lemma Rosenbrock_derivable_1 (c x0 x1 : R) :
  derivable_pt_lim
    (fun t => (1 - x0) * (1 - x0) + c * (t - x0 * x0) * (t - x0 * x0)) x1
    (2 * c * (x1 - x0 * x0)).
Proof.
  set (w := (id - fct_cte (x0 * x0))%F).
  assert (derivable_pt_lim w x1 (1 - 0)) as Hw.
  { apply derivable_pt_lim_minus;
      [apply derivable_pt_lim_id|apply derivable_pt_lim_const]. }
  assert (derivable_pt_lim (fct_cte c * w)%F x1
            (0 * w x1 + fct_cte c x1 * (1 - 0))) as Hcw.
  { apply derivable_pt_lim_mult; [apply derivable_pt_lim_const|exact Hw]. }
  pose proof (derivable_pt_lim_plus _ _ _ _ _
                (derivable_pt_lim_const ((1 - x0) * (1 - x0)) x1)
                (derivable_pt_lim_mult _ _ _ _ _ Hcw Hw)) as Hsum.
  replace (2 * c * (x1 - x0 * x0)) with
    (0 + ((0 * w x1 + fct_cte c x1 * (1 - 0)) * w x1 +
          (fct_cte c * w)%F x1 * (1 - 0))).
  - exact Hsum.
  - unfold w, fct_cte, id, minus_fct, mult_fct. ring.
Qed.

End Real_Objectives.

(** ** The root finders in [double], started at an exact zero *)

Section Double_Exact_Root.
Local Open Scope float_scope.

Lemma Prim2SF_nan : Prim2SF nan = S754_nan.
Proof. reflexivity. Qed.

Lemma double_ltb_nan_l (y : float) : (nan <? y) = false.
Proof. rewrite ltb_spec, Prim2SF_nan. reflexivity. Qed.

Lemma double_add_nan_r (x : float) : x + nan = nan.
Proof.
  apply Prim2SF_inj. rewrite add_spec, Prim2SF_nan.
  unfold SF64add. destruct (Prim2SF x); reflexivity.
Qed.

Lemma double_add_signed_zero (x z : float) :
  z = 0 \/ z = -0 -> x + z = x \/ (x = -0 /\ z = 0 /\ x + z = 0).
Proof.
  intros Hz. destruct (Prim2SF x) as [s|s| |s m e] eqn:Hx.
  - assert (x = SF2Prim (S754_zero s)) as ->
      by (rewrite <- Hx; symmetry; apply SF2Prim_Prim2SF).
    destruct s, Hz as [-> | ->]; vm_compute; auto.
  - left. apply Prim2SF_inj. rewrite add_spec, Hx.
    destruct Hz as [-> | ->]; reflexivity.
  - left. apply Prim2SF_inj. rewrite add_spec, Hx.
    destruct Hz as [-> | ->]; reflexivity.
  - left. apply Prim2SF_inj. rewrite add_spec, Hx.
    destruct Hz as [-> | ->]; reflexivity.
Qed.

Lemma double_div_zero_l (z d : float) :
  z = 0 \/ z = -0 -> (d =? d) = true -> (d =? 0) = false ->
  z / d = 0 \/ z / d = -0.
Proof.
  intros Hz Hnn Hnz. rewrite FloatAxioms.eqb_spec in Hnn, Hnz.
  assert (forall s, SF2Prim (S754_zero s) = 0 \/ SF2Prim (S754_zero s) = -0) as Hzs
    by (intros []; vm_compute; auto).
  assert (exists s, Prim2SF (z / d) = S754_zero s) as [s Hs].
  { rewrite div_spec. destruct (Prim2SF d) as [sd|sd| |sd md ed].
    - exfalso. destruct sd; vm_compute in Hnz; discriminate.
    - destruct Hz as [-> | ->]; eexists; reflexivity.
    - exfalso. vm_compute in Hnn. discriminate.
    - destruct Hz as [-> | ->]; eexists; reflexivity. }
  rewrite <- (SF2Prim_Prim2SF (z / d)), Hs. apply Hzs.
Qed.

Section Steffensen_At_Zero.
Variable f_obj : Function.t float float.
Variable epsilon : float.
Local Abbreviation value := (Function.Interface_f (Function._pimpl f_obj)).
Local Abbreviation step := (Steffensen_step_spec f_obj).
Hypothesis value_nan : value nan = nan.

Lemma Steffensen_step_nan : step nan = (nan, nan).
Proof.
  unfold Steffensen_step_spec. cbn [s_add s_sub s_mul s_div s_neg double].
  rewrite value_nan. change (nan + nan) with nan. by rewrite value_nan.
Qed.

Lemma Steffensen_spec_from_nan (n : nat) (iter : N) :
  let r := root_iteration_spec step epsilon n iter nan in
  r.1.1 = false /\ r.1.2 = nan /\ length r.2 = n.
Proof.
  revert iter. induction n as [|n IH]; intros iter; [done|].
  cbv zeta. cbn [root_iteration_spec]. rewrite Steffensen_step_nan.
  cbn [s_ltb s_abs s_add double]. change (abs nan) with nan.
  rewrite double_ltb_nan_l. change (nan + nan) with nan.
  specialize (IH (iter + 1)%N). cbv zeta in IH.
  destruct (root_iteration_spec step epsilon n (iter + 1)%N nan) as [[b xf] ls].
  cbn [fst snd length] in *. destruct IH as (-> & -> & ->). done.
Qed.

Lemma Steffensen_step_at_zero (x : float) :
  value x = 0 \/ value x = -0 ->
  value (x + value x) = value x ->
  step x = (nan, value x).
Proof.
  intros Hzero Hsame. unfold Steffensen_step_spec.
  cbn [s_add s_sub s_mul s_div s_neg double]. rewrite Hsame.
  by destruct Hzero as [-> | ->].
Qed.
End Steffensen_At_Zero.

(** X17. Steffensen in [double] started at an exact zero of the function
    (the value at [x] is a zero of either sign, and so is the value at
    [x + f]) divides zero by zero: whatever the tolerance, no iteration
    meets the test, the budget of iterations is spent, [false] is returned
    and a NaN is left in [x] (for a function that maps the NaN to the
    NaN). *)
Theorem Steffensen_at_exact_zero (f_obj : Function.t float float)
    (x epsilon : float) (max_iter : N) (fuel : nat) (st : State float) :
  let value := Function.Interface_f (Function._pimpl f_obj) in
  value x = 0 \/ value x = -0 ->
  value (x + value x) = value x ->
  value nan = nan ->
  (1 <= max_iter < size_t_modulus - 1)%N ->
  (N.to_nat max_iter < fuel)%nat ->
  exists st',
    Steffensen fuel f_obj x epsilon max_iter st = Ret (false, nan) st' /\
    length (cerr st') = (length (cerr st) + N.to_nat max_iter)%nat /\
    counters st' =
      bump (Function._f_counter f_obj) (2 * N.to_nat max_iter) (counters st).
Proof.
  intros value Hzero Hsame Hnan [Hone Hmax] Hfuel.
  pose proof (Steffensen_run f_obj x epsilon max_iter fuel st Hmax Hfuel) as Hrun.
  cbv zeta in Hrun.
  destruct (N.to_nat max_iter) as [|n] eqn:Hn; [lia|].
  assert (let r := root_iteration_spec (Steffensen_step_spec f_obj) epsilon (S n) 1 x in
          r.1.1 = false /\ r.1.2 = nan /\ length r.2 = S n) as Hspec.
  { cbv zeta. cbn [root_iteration_spec].
    rewrite (Steffensen_step_at_zero f_obj x Hzero Hsame).
    cbn [s_ltb s_abs s_add double]. change (abs nan) with nan.
    rewrite double_ltb_nan_l, double_add_nan_r.
    pose proof (Steffensen_spec_from_nan f_obj epsilon Hnan n (1 + 1)%N) as Hrest.
    cbv zeta in Hrest.
    destruct (root_iteration_spec (Steffensen_step_spec f_obj) epsilon n (1 + 1)%N nan)
      as [[b xf] ls].
    cbn [fst snd length] in *. destruct Hrest as (-> & -> & ->). done. }
  cbv zeta in Hspec. destruct Hspec as (Hb & Hx & Hlen).
  change (s_of_double epsilon) with epsilon in Hrun.
  rewrite Hb, Hx, Hlen in Hrun.
  eexists. split; [exact Hrun|]. cbn [cerr counters].
  split; [by rewrite length_app, Hlen|]. do 2 f_equal. lia.
Qed.

Lemma Steffensen_at_exact_zero_witness :
  exists st',
    Steffensen 21 (Differentiable_Function.as_function (square_root 4)) 2
      default_epsilon 20 (mkState [] []) = Ret (false, nan) st'.
Proof.
  destruct (Steffensen_at_exact_zero
              (Differentiable_Function.as_function (square_root 4)) 2
              default_epsilon 20 21 (mkState [] []))
    as (st' & Hrun & _).
  - left. reflexivity.
  - reflexivity.
  - reflexivity.
  - split; [discriminate|reflexivity].
  - cbn. lia.
  - exists st'. exact Hrun.
Defined.

(** X18. Newton in [double] started at an exact zero of the function, with
    a derivative that is a number other than zero (the infinities
    included) and a positive tolerance, returns [true] from its first
    iteration after one combined evaluation, and leaves [x] as it is: the
    step is a zero, and adding it changes nothing but the sign of a zero
    [x]. *)
Theorem Newton_at_exact_zero (f_obj : Differentiable_Function.t float float float)
    (x epsilon : float) (max_iter : N) (fuel : nat) (st : State float) :
  let r := Differentiable_Function.Interface_f_df
             (Differentiable_Function._pimpl f_obj) x in
  r.1 = 0 \/ r.1 = -0 ->
  (r.2 =? r.2) = true -> (r.2 =? 0) = false ->
  (0 <? epsilon) = true ->
  (1 <= max_iter)%N ->
  exists x' st',
    Newton (S fuel) f_obj x epsilon max_iter st = Ret (true, x') st' /\
    (x' = x \/ (x = -0 /\ x' = 0)) /\
    length (cerr st') = S (length (cerr st)) /\
    counters st' =
      bump (Differentiable_Function._df_counter f_obj) 1
        (bump (Differentiable_Function._f_counter f_obj) 1 (counters st)).
Proof.
  intros r Hzero Hnn Hnz Heps Hone.
  assert ((Newton_step_spec f_obj x).1 = 0 \/ (Newton_step_spec f_obj x).1 = -0)
    as Hdelta.
  { unfold Newton_step_spec. fold r. destruct r as [f df]. cbn [fst snd] in *.
    cbn [s_div s_neg double]. apply double_div_zero_l; [|done|done].
    destruct Hzero as [-> | ->]; vm_compute; auto. }
  assert (converged_at (Newton_step_spec f_obj) (s_of_double epsilon) x = true)
    as Hconv.
  { unfold converged_at. cbn [s_ltb s_abs s_of_double double].
    by destruct Hdelta as [-> | ->]. }
  eexists _, _. split; [by apply Newton_first_iteration|].
  cbn [cerr counters]. split.
  - cbn [s_add double].
    destruct (double_add_signed_zero x _ Hdelta) as [Heq|(Hx & _ & Heq)]; auto.
  - split; [|done]. rewrite length_app. cbn. lia.
Qed.

Lemma Newton_at_exact_zero_witness :
  exists x' st',
    Newton 1 (square_root 4) 2 default_epsilon 20 (mkState [] []) =
      Ret (true, x') st' /\
    (x' = 2 \/ (2 = -0 /\ x' = 0)).
Proof.
  destruct (Newton_at_exact_zero (square_root 4) 2 default_epsilon 20 0
              (mkState [] []))
    as (x' & st' & Hrun & Hx & _).
  - left. reflexivity.
  - reflexivity.
  - reflexivity.
  - reflexivity.
  - discriminate.
  - exists x', st'. split; [exact Hrun|exact Hx].
Defined.
End Double_Exact_Root.

(** ** The properties at the examples *)


Lemma Adam_outcome_witness :
  exists j hc st',
    Adam_optimize 100 example_configuration example_quadratic [1.5%float]
      (mkState [] []) =
    Ret (hc, (Adam_updates example_configuration example_quadratic j 1 [1.5%float]
                [0%float] [0%float]).1.1) st'.
Proof.
  destruct (Adam_outcome example_configuration example_quadratic
              [1.5%float] 100 (mkState [] []))
    as (j & hc & st' & Hrun & _).
  - vm_compute. reflexivity.
  - vm_compute. lia.
  - exists j, hc, st'. exact Hrun.
Defined.

Lemma Adam_keeps_dimension_witness :
  exists hc x' st',
    Adam_optimize 100 example_configuration example_quadratic [1.5%float]
      (mkState [] []) = Ret (hc, x') st' /\
    length x' = 1%nat.
Proof.
  destruct (Adam_keeps_dimension example_configuration example_quadratic
              [1.5%float] 100 (mkState [] []))
    as (k' & s' & st' & _ & Hrun & Hlen & _).
  - intros y Hy. unfold gradient_at. cbn. rewrite length_fmap. exact Hy.
  - vm_compute. reflexivity.
  - vm_compute. lia.
  - exists (has_converged s'), (x_init s'), st'. split; [exact Hrun|exact Hlen].
Defined.


Lemma root_finder_reports_witness :
  (exists b x' st',
     Newton 21 (square_root 2%float) 1%float default_epsilon 20 (mkState [] []) =
       Ret (b, x') st') /\
  (exists b x' st',
     Steffensen 21 (Differentiable_Function.as_function (square_root 2%float))
       1%float default_epsilon 20 (mkState [] []) = Ret (b, x') st').
Proof.
  destruct (root_finder_reports (square_root 2%float) 1%float default_epsilon 20 21
              (mkState [] []))
    as [(b & x' & st' & lines & Hrun & _) (b2 & x2 & st2 & lines2 & Hrun2 & _)].
  - vm_compute. reflexivity.
  - vm_compute. lia.
  - split; [exists b, x', st'; exact Hrun|exists b2, x2, st2; exact Hrun2].
Defined.



(** ** The two programs against the output that the README records *)

(** X19. The program of the root finders returns what the README shows
    it printing: Newton, then Steffensen, on [square_root] with [c = 2]
    from [x = 2] write the five and the seven records of the README, digit
    for digit (seventeen digits determine a [double]), both return [true],
    and the counters read 5 and 5, then 14 and 0. *)
Theorem main_root_finders_prints :
  returned (main_root_finders (mkState [] [])) =
    Some ((true, 1.4142135623730951, 5%N, 5%N),
          (true, 1.4142135623730949, 14%N, 0%N))%float /\
  printed (main_root_finders (mkState [] [])) =
    Some [(1%N, 1.5, 2);
          (2%N, 1.4166666666666667, 0.25);
          (3%N, 1.4142156862745099, 0.0069444444444446418);
          (4%N, 1.4142135623746899, 6.0073048828712672e-06);
          (5%N, 1.4142135623730951, 4.510614104447086e-12);
          (1%N, 1.6666666666666667, 2);
          (2%N, 1.4774774774774775, 0.77777777777777812);
          (3%N, 1.4191773378054482, 0.18293969645320995);
          (4%N, 1.414246675030719, 0.014064316140559363);
          (5%N, 1.4142135638571252, 9.3657835444016513e-05);
          (6%N, 1.4142135623730951, 4.1974708153702522e-09);
          (7%N, 1.4142135623730949, 4.4408920985006262e-16)]%float.
Proof. split; vm_compute; reflexivity. Qed.

(** X20. The program of [main.cpp] returns what the README shows it
    printing: Adam on [Rosenbrock] with [c = 10] from (2, 2) meets the test
    at the index 97 and returns [true]; it writes records at the indices 1,
    11, ..., 91 and 97, and the counters read 11 evaluations of the value
    and 97 of the gradient. *)
Theorem main_Adam_prints :
  (exists x, returned (main_Adam (mkState [] [])) = Some (true, x, 11%N, 97%N)) /\
  (fun l : line float => l.1.1) <$> default [] (printed (main_Adam (mkState [] []))) =
    [1; 11; 21; 31; 41; 51; 61; 71; 81; 91; 97]%N.
Proof. split; [eexists|]; vm_compute; reflexivity. Qed.
